(** * automatecm: the command catalogue, its persistence and the distro classifier

    A shallow embedding of [main.py]: the [Command] dataclass, [ConfigManager]
    (the JSON file of custom commands), [CommandRegistry] (built-in commands
    followed by the custom ones) and [detect_distro].

    Python values are dynamically typed, and [ConfigManager.load_custom] builds
    commands from whatever [json.load] returns, so the fields of a command are
    Python values ([pyval]), not Rocq strings and booleans.  Functions that can
    raise return an [outcome]; a bare [except:] is a match on it. *)

From Stdlib Require Import ZArith String Ascii List Bool Lia.
From stdpp Require Import base option list strings gmap.

Local Open Scope Z_scope.
Set Warnings "-register-all".

(** ** Python values *)

(** The values [json.load] produces, which are also all the values this program
    stores in a command.  A [float] is represented by its [repr] (the text
    [json.dump] writes for it); a [dict] keeps its insertion order, which
    [json.dump] follows, and holds every key once. *)
Inductive pyval : Type :=
| PNone
| PBool (b : bool)
| PInt (z : Z)
| PFloat (repr : string)
| PStr (s : string)
| PList (l : list pyval)
| PDict (d : list (string * pyval)).

Inductive exn : Type :=
| TypeError
| AttributeError
| IndexError
| ValueError
| JSONDecodeError
| OSError.

Inductive outcome (A : Type) : Type :=
| Ok (a : A)
| Raise (e : exn).

Arguments Ok {A} a.
Arguments Raise {A} e.

Definition bind {A B : Type} (m : outcome A) (f : A -> outcome B) : outcome B :=
  match m with
  | Ok a => f a
  | Raise e => Raise e
  end.

Notation "x <- m ;; k" := (bind m (fun x => k))
  (at level 100, m at next level, right associativity, only parsing).

(** A list comprehension whose body can raise: the first exception aborts it. *)
Fixpoint comprehension {A B : Type} (f : A -> outcome B) (l : list A) : outcome (list B) :=
  match l with
  | [] => Ok []
  | x :: l' =>
      y <- f x ;;
      ys <- comprehension f l' ;;
      Ok (y :: ys)
  end.

(** [bool(v)]: the truth value Python gives [v] in [if v] and [not v]. *)
Definition truthy (v : pyval) : bool :=
  match v with
  | PNone => false
  | PBool b => b
  | PInt z => negb (z =? 0)
  | PFloat r => negb (String.eqb r "0.0" || String.eqb r "-0.0")
  | PStr s => negb (String.eqb s "")
  | PList l => match l with [] => false | _ :: _ => true end
  | PDict d => match d with [] => false | _ :: _ => true end
  end.

(** [v == s] for a [str] [s]: only an equal [str] compares equal to it. *)
Definition py_eq_str (v : pyval) (s : string) : bool :=
  match v with
  | PStr s' => String.eqb s' s
  | _ => false
  end.

(** [d.get(k)] on the items of a [dict]: [None] when the key is absent. *)
Fixpoint dict_lookup (k : string) (d : list (string * pyval)) : option pyval :=
  match d with
  | [] => None
  | (k', v) :: d' => if String.eqb k' k then Some v else dict_lookup k d'
  end.

Definition dict_get (d : list (string * pyval)) (k : string) : pyval :=
  default PNone (dict_lookup k d).

(** [for x in v]: what iterating over [v] yields. *)
Definition py_iter (v : pyval) : outcome (list pyval) :=
  match v with
  | PList l => Ok l
  | PDict d => Ok (map (fun kv => PStr (fst kv)) d)
  | PStr s => Ok (map (fun c => PStr (String c EmptyString)) (list_ascii_of_string s))
  | PNone | PBool _ | PInt _ | PFloat _ => Raise TypeError
  end.

(** [l[i]] on a list: a negative index counts from the end, an index outside
    the list raises [IndexError]. *)
Definition py_getitem {A : Type} (l : list A) (i : Z) : outcome A :=
  let i' := if i <? 0 then i + Z.of_nat (length l) else i in
  if i' <? 0 then Raise IndexError
  else match l !! Z.to_nat i' with
       | Some x => Ok x
       | None => Raise IndexError
       end.

(** ** [DistroFamily] and [Command] *)

Inductive DistroFamily : Type := DEBIAN | REDHAT | ARCH | SUSE | UNKNOWN.

Definition value (f : DistroFamily) : string :=
  match f with
  | DEBIAN => "debian"
  | REDHAT => "redhat"
  | ARCH => "arch"
  | SUSE => "suse"
  | UNKNOWN => "unknown"
  end.

Record Command : Type := mkCommand {
  name : pyval;
  description : pyval;
  commands : pyval;
  requires_root : pyval;
  is_custom : pyval;
  alias : pyval
}.

(** [Command.get_cmd]: [self.commands.get(family)].  A [commands] field that is
    not a [dict] has no [get]. *)
Definition get_cmd (self : Command) (family : string) : outcome pyval :=
  match commands self with
  | PDict d => Ok (dict_get d family)
  | _ => Raise AttributeError
  end.

(** The positional call [Command(name, desc, cmds, root)] of
    [_register_builtin]: the last two fields take their defaults. *)
Definition Command_positional (n d : string) (cmds : list (string * string)) (root : bool) : Command :=
  {| name := PStr n;
     description := PStr d;
     commands := PDict (map (fun kv => (fst kv, PStr (snd kv))) cmds);
     requires_root := PBool root;
     is_custom := PBool false;
     alias := PNone |}.

Definition field_names : list string :=
  ["name"; "description"; "commands"; "requires_root"; "is_custom"; "alias"].

(** The call of [Command] with [cmd] unpacked as its keyword arguments, as
    [load_custom] makes it: [cmd] must be a mapping, every key must be a field,
    and the three fields without a default must be given. *)
Definition Command_kwargs (cmd : pyval) : outcome Command :=
  match cmd with
  | PDict d =>
      if forallb (fun kv => existsb (String.eqb (fst kv)) field_names) d then
        match dict_lookup "name" d, dict_lookup "description" d, dict_lookup "commands" d with
        | Some n, Some de, Some cs =>
            Ok {| name := n;
                  description := de;
                  commands := cs;
                  requires_root := default (PBool false) (dict_lookup "requires_root" d);
                  is_custom := default (PBool false) (dict_lookup "is_custom" d);
                  alias := default PNone (dict_lookup "alias" d) |}
        | _, _, _ => Raise TypeError
        end
      else Raise TypeError
  | _ => Raise TypeError
  end.

(** [dataclasses.asdict(cmd)]: the fields in declaration order, values copied. *)
Definition asdict (cmd : Command) : pyval :=
  PDict [("name", name cmd);
         ("description", description cmd);
         ("commands", commands cmd);
         ("requires_root", requires_root cmd);
         ("is_custom", is_custom cmd);
         ("alias", alias cmd)].

(** ** The outside world: the file of custom commands and the terminal *)

(** The text of [custom_commands.json] is known through what the [json] module
    does with it.  [Dumped v] is the text [json.dump(v, f, indent=2)] writes,
    a function of [v] alone; [json.load] reads it back as [v].  [Truncated l]
    is a strict prefix of the text of the list [l], left behind when writing
    stops half-way: its closing bracket is missing, so it does not parse.
    [Foreign r] is any other text (or an unreadable file): reading and parsing
    it gives [r]. *)
Inductive file_content : Type :=
| Foreign (r : outcome pyval)
| Dumped (v : pyval)
| Truncated (l : list pyval).

Inductive message : Type :=
| ErrorSaving (e : exn)
| AliasExists (a : string).

(** [config_file]: [None] when the file does not exist. *)
Record World : Type := mkWorld {
  config_file : option file_content;
  stdout : list message
}.

Definition print (m : message) (w : World) : World :=
  {| config_file := config_file w; stdout := stdout w ++ [m] |}.

(** How [open(config_file, 'w')] followed by [json.dump] can end: the text is
    written; or the file cannot be opened for writing (directory missing or not
    writable, permission denied), and then nothing is touched; or it is opened,
    which empties it, and writing fails before the text is complete (disk
    full). *)
Inductive io_fault : Type := NoFault | OpenFails | WriteFails.

Definition json_load (f : file_content) : outcome pyval :=
  match f with
  | Foreign r => r
  | Dumped v => Ok v
  | Truncated _ => Raise JSONDecodeError
  end.

(** ** [ConfigManager] *)

Module ConfigManager.

(** [load_custom] in a state where [self.config_file.exists()] gives an
    answer, which every [World] is: its [try] catches whatever reading and
    parsing raise.  The test itself stands before the [try]; [load_custom_call]
    below is the method in any state. *)
Definition load_custom (w : World) : list Command :=
  match config_file w with
  | None => []
  | Some f =>
      match (data <- json_load f ;;
             items <- py_iter data ;;
             comprehension Command_kwargs items) with
      | Ok cmds => cmds
      | Raise _ => []
      end
  end.

(** Returns [None] on every path; an exception is printed, not raised. *)
Definition save_custom (fault : io_fault) (commands : list Command) (w : World) : unit * World :=
  let data := map asdict (filter (fun cmd => truthy (is_custom cmd)) commands) in
  match fault with
  | NoFault =>
      (tt, {| config_file := Some (Dumped (PList data)); stdout := stdout w |})
  | OpenFails =>
      (tt, print (ErrorSaving OSError) w)
  | WriteFails =>
      (tt, print (ErrorSaving OSError)
             {| config_file := Some (Truncated data); stdout := stdout w |})
  end.

Definition new_cmd (a n desc cmd : string) (root : bool) : Command :=
  {| name := PStr n;
     description := PStr desc;
     commands := PDict [("debian", PStr cmd); ("redhat", PStr cmd);
                        ("arch", PStr cmd); ("suse", PStr cmd); ("unknown", PStr cmd)];
     requires_root := PBool root;
     is_custom := PBool true;
     alias := PStr a |}.

Definition add_custom (fault : io_fault) (a n desc cmd : string) (root : bool)
    (w : World) : bool * World :=
  let commands := load_custom w in
  if existsb (fun c => py_eq_str (alias c) a) commands then
    (false, print (AliasExists a) w)
  else
    let commands := commands ++ [new_cmd a n desc cmd root] in
    let '(_, w) := save_custom fault commands w in
    (true, w).

Definition remove_custom (fault : io_fault) (a : string) (w : World) : bool * World :=
  let commands := load_custom w in
  let filtered := filter (fun c => negb (py_eq_str (alias c) a)) commands in
  if Nat.eqb (length commands) (length filtered) then
    (false, w)
  else
    let '(_, w) := save_custom fault filtered w in
    (true, w).

End ConfigManager.

(** ** [CommandRegistry] *)

Definition nl : string := String "010"%char EmptyString.

Module CommandRegistry.

(** The table of [_register_builtin]: name, description, the command of each
    family, and whether root is required. *)
Definition builtin : list (string * string * list (string * string) * bool) :=
  [
   ("System Update", "Update system packages",
      [("debian", "sudo apt update && sudo apt upgrade -y");
       ("redhat", "sudo dnf update -y");
       ("arch", "sudo pacman -Syu --noconfirm");
       ("suse", "sudo zypper update -y")],
      true);

   ("Clean Cache", "Clean package cache",
      [("debian", "sudo apt clean && sudo apt autoremove -y");
       ("redhat", "sudo dnf clean all && sudo dnf autoremove -y");
       ("arch", "sudo pacman -Sc --noconfirm");
       ("suse", "sudo zypper clean -a")],
      true);

   ("System Info", "Display system information",
      [("debian", "neofetch || (sudo apt install -y neofetch && neofetch)");
       ("redhat", "neofetch || (sudo dnf install -y neofetch && neofetch)");
       ("arch", "neofetch || (sudo pacman -S --noconfirm neofetch && neofetch)");
       ("suse", "neofetch || (sudo zypper install -y neofetch && neofetch)")],
      false);

   ("Disk Usage", "Analyze disk usage",
      [("debian", "df -h && echo '" +:+ nl +:+ "--- Top 10 Largest Directories ---' && sudo du -h / 2>/dev/null | sort -rh | head -10");
       ("redhat", "df -h && echo '" +:+ nl +:+ "--- Top 10 Largest Directories ---' && sudo du -h / 2>/dev/null | sort -rh | head -10");
       ("arch", "df -h && echo '" +:+ nl +:+ "--- Top 10 Largest Directories ---' && sudo du -h / 2>/dev/null | sort -rh | head -10");
       ("suse", "df -h && echo '" +:+ nl +:+ "--- Top 10 Largest Directories ---' && sudo du -h / 2>/dev/null | sort -rh | head -10")],
      false);

   ("Network Info", "Show network details",
      [("debian", "ip addr show && echo '" +:+ nl +:+ "--- Gateway ---' && ip route | grep default");
       ("redhat", "ip addr show && echo '" +:+ nl +:+ "--- Gateway ---' && ip route | grep default");
       ("arch", "ip addr show && echo '" +:+ nl +:+ "--- Gateway ---' && ip route | grep default");
       ("suse", "ip addr show && echo '" +:+ nl +:+ "--- Gateway ---' && ip route | grep default")],
      false);

   ("Running Services", "List active services",
      [("debian", "systemctl list-units --type=service --state=running");
       ("redhat", "systemctl list-units --type=service --state=running");
       ("arch", "systemctl list-units --type=service --state=running");
       ("suse", "systemctl list-units --type=service --state=running")],
      false);

   ("Memory Usage", "Display memory info",
      [("debian", "free -h && echo '" +:+ nl +:+ "--- Top 10 Memory Consumers ---' && ps aux --sort=-%mem | head -11");
       ("redhat", "free -h && echo '" +:+ nl +:+ "--- Top 10 Memory Consumers ---' && ps aux --sort=-%mem | head -11");
       ("arch", "free -h && echo '" +:+ nl +:+ "--- Top 10 Memory Consumers ---' && ps aux --sort=-%mem | head -11");
       ("suse", "free -h && echo '" +:+ nl +:+ "--- Top 10 Memory Consumers ---' && ps aux --sort=-%mem | head -11")],
      false);

   ("Failed Services", "Check failed services",
      [("debian", "systemctl --failed");
       ("redhat", "systemctl --failed");
       ("arch", "systemctl --failed");
       ("suse", "systemctl --failed")],
      false);

   ("System Logs", "View recent error logs",
      [("debian", "journalctl -p err -b --no-pager | tail -50");
       ("redhat", "journalctl -p err -b --no-pager | tail -50");
       ("arch", "journalctl -p err -b --no-pager | tail -50");
       ("suse", "journalctl -p err -b --no-pager | tail -50")],
      false);

   ("Security Updates", "Install security patches",
      [("debian", "sudo apt update && sudo unattended-upgrade -d");
       ("redhat", "sudo dnf update --security -y");
       ("arch", "sudo pacman -Syu --noconfirm");
       ("suse", "sudo zypper patch -y")],
      true)
  ].

(** The registry's state is [self.commands]. *)
Definition _register_builtin (self_commands : list Command) : list Command :=
  fold_left
    (fun acc '(n, desc, cmds, root) => acc ++ [Command_positional n desc cmds root])
    builtin self_commands.

Definition _load_custom (w : World) (self_commands : list Command) : list Command :=
  self_commands ++ ConfigManager.load_custom w.

(** [__init__]. *)
Definition init (w : World) : list Command :=
  _load_custom w (_register_builtin []).

Definition reload (w : World) (self_commands : list Command) : list Command :=
  _load_custom w (filter (fun c => negb (truthy (is_custom c))) self_commands).

Definition get (self_commands : list Command) (idx : Z) : outcome (option Command) :=
  if (0 <=? idx) && (idx <? Z.of_nat (length self_commands)) then
    c <- py_getitem self_commands idx ;;
    Ok (Some c)
  else Ok None.

End CommandRegistry.

(** ** The state of the config directory *)

(** Asking whether the file exists is itself a system call.  In a
    [Searchable] state it gives an answer, and the rest is a [World].  In the
    [Unsearchable] state it raises: [Path.exists()] of Python 3.11 swallows
    only the errors that mean the file is not there, and passes on
    [PermissionError], an [OSError], when the directory may not be
    searched. *)
Inductive Storage : Type :=
| Unsearchable
| Searchable (w : World).

(** [ConfigManager.load_custom], the whole method: the test of line 78 is not
    inside the [try], so what it raises leaves the method. *)
Definition load_custom_call (st : Storage) : outcome (list Command) :=
  match st with
  | Unsearchable => Raise OSError
  | Searchable w => Ok (ConfigManager.load_custom w)
  end.

(** [ConfigManager.add_custom] and [ConfigManager.remove_custom], the whole
    methods: both start with [load_custom], and when that raises nothing is
    printed or written. *)
Definition add_custom_call (fault : io_fault) (a n desc cmd : string) (root : bool)
    (st : Storage) : outcome bool * Storage :=
  match st with
  | Unsearchable => (Raise OSError, Unsearchable)
  | Searchable w =>
      let '(added, w) := ConfigManager.add_custom fault a n desc cmd root w in
      (Ok added, Searchable w)
  end.

Definition remove_custom_call (fault : io_fault) (a : string) (st : Storage)
    : outcome bool * Storage :=
  match st with
  | Unsearchable => (Raise OSError, Unsearchable)
  | Searchable w =>
      let '(removed, w) := ConfigManager.remove_custom fault a w in
      (Ok removed, Searchable w)
  end.

(** [CommandRegistry.__init__]: when [_load_custom] raises, so does the
    constructor, and there is no registry. *)
Definition init_call (st : Storage) : outcome (list Command) :=
  match st with
  | Unsearchable => Raise OSError
  | Searchable w => Ok (CommandRegistry.init w)
  end.

(** [CommandRegistry.reload]: [self.commands] is assigned before
    [_load_custom] is called, so when that raises the custom entries are
    already gone.  The result is [self.commands] afterwards, and how the
    method ended. *)
Definition reload_call (st : Storage) (self_commands : list Command)
    : list Command * outcome unit :=
  match st with
  | Unsearchable =>
      (filter (fun c => negb (truthy (is_custom c))) self_commands, Raise OSError)
  | Searchable w => (CommandRegistry.reload w self_commands, Ok tt)
  end.

(** ** [detect_distro] *)

(** [x in s] for two strings: [x] occurs in [s] as a substring. *)
Fixpoint str_in (x s : string) : bool :=
  String.prefix x s ||
  match s with
  | EmptyString => false
  | String _ s' => str_in x s'
  end.

(** [s.split('=', 1)] unpacked into two names: the text before the first
    ['='] and the text after it; without an ['='] the unpacking raises. *)
Fixpoint split_eq (s : string) : outcome (string * string) :=
  match s with
  | EmptyString => Raise ValueError
  | String c s' =>
      if Ascii.eqb c "="%char then Ok (EmptyString, s')
      else
        parts <- split_eq s' ;;
        let '(key, val) := parts in
        Ok (String c key, val)
  end.

Fixpoint lstrip_char (c : ascii) (s : string) : string :=
  match s with
  | EmptyString => EmptyString
  | String a s' => if Ascii.eqb a c then lstrip_char c s' else s
  end.

Fixpoint rstrip_char (c : ascii) (s : string) : string :=
  match s with
  | EmptyString => EmptyString
  | String a s' =>
      match rstrip_char c s' with
      | EmptyString => if Ascii.eqb a c then EmptyString else String a EmptyString
      | r => String a r
      end
  end.

(** [s.strip(c)] for a one-character [c]. *)
Definition strip_char (c : ascii) (s : string) : string :=
  rstrip_char c (lstrip_char c s).

Section DetectDistro.

(** [str.lower] and [str.strip] follow Unicode tables that are not part of
    this program. *)
Variable str_lower : string -> string.
Variable str_strip : string -> string.

Definition any_in (keywords : list string) (check : string) : bool :=
  existsb (fun x => str_in x check) keywords.

(** The body of the [for line in f] loop. *)
Definition read_line (data : gmap string string) (line : string)
    : outcome (gmap string string) :=
  if str_in "=" line then
    parts <- split_eq (str_strip line) ;;
    let '(key, val) := parts in
    Ok (<[key := strip_char "034"%char val]> data)
  else Ok data.

Fixpoint read_lines (data : gmap string string) (lines : list string)
    : outcome (gmap string string) :=
  match lines with
  | [] => Ok data
  | line :: lines' =>
      data' <- read_line data line ;;
      read_lines data' lines'
  end.

(** What [detect_distro] does with [data] once the lines are read. *)
Definition classify (data : gmap string string) : string * string :=
  let distro_id := str_lower (default "" (data !! "ID")) in
  let distro_like := str_lower (default "" (data !! "ID_LIKE")) in
  let distro_name := default "Unknown Linux" (data !! "PRETTY_NAME") in
  let check := distro_id +:+ " " +:+ distro_like in
  if any_in ["ubuntu"; "debian"; "mint"; "pop"; "kali"] check then
    ("debian", distro_name)
  else if any_in ["rhel"; "fedora"; "centos"; "rocky"; "alma"] check then
    ("redhat", distro_name)
  else if any_in ["arch"; "manjaro"; "endeavour"] check then
    ("arch", distro_name)
  else if any_in ["suse"; "opensuse"] check then
    ("suse", distro_name)
  else ("unknown", distro_name).

(** [os_release] is the list of lines of [/etc/os-release], each with its
    line end, or [None] when the file cannot be opened or read to its end:
    wherever the exception comes from, what was read is dropped. *)
Definition detect_distro (os_release : option (list string)) : string * string :=
  match os_release with
  | None => ("unknown", "Unknown Linux")
  | Some lines =>
      match read_lines ∅ lines with
      | Ok data => classify data
      | Raise _ => ("unknown", "Unknown Linux")
      end
  end.

End DetectDistro.

(** [str.lower] and [str.strip] on ASCII text. *)
Definition ascii_lower_char (c : ascii) : ascii :=
  let n := nat_of_ascii c in
  if (65 <=? n)%nat && (n <=? 90)%nat then ascii_of_nat (n + 32) else c.

Fixpoint ascii_lower (s : string) : string :=
  match s with
  | EmptyString => EmptyString
  | String c s' => String (ascii_lower_char c) (ascii_lower s')
  end.

Definition is_space (c : ascii) : bool :=
  let n := nat_of_ascii c in
  ((9 <=? n)%nat && (n <=? 13)%nat) || ((28 <=? n)%nat && (n <=? 32)%nat).

Fixpoint lstrip_space (s : string) : string :=
  match s with
  | EmptyString => EmptyString
  | String a s' => if is_space a then lstrip_space s' else s
  end.

Fixpoint rstrip_space (s : string) : string :=
  match s with
  | EmptyString => EmptyString
  | String a s' =>
      match rstrip_space s' with
      | EmptyString => if is_space a then EmptyString else String a EmptyString
      | r => String a r
      end
  end.

Definition ascii_strip (s : string) : string := rstrip_space (lstrip_space s).

(** ** [FastExecutor] *)

(** How [subprocess.run(command, shell=True, executable='/bin/bash')] ends: it
    returns with an exit status, it is interrupted from the keyboard, or it
    raises (a [command] that is neither text nor a list, a missing shell). *)
Inductive run_outcome : Type :=
| Returned (returncode : Z)
| Interrupted
| Failed (e : exn).

(** What [execute] does, in order: one constructor for each [print], and
    [Spawn command] for the call of [subprocess.run] on [command]. *)
Inductive exec_event : Type :=
| NotSupported (family : string)
| RuleAbove
| ExecutingLine (n : pyval)
| DescriptionLine (d : pyval)
| AliasLine (a : pyval)
| RuleBelow
| RequiresRoot
| Spawn (command : pyval)
| Completed
| ExitedWith (returncode : Z)
| InterruptedLine
| ErrorLine (e : exn).

Module FastExecutor.

(** [euid] is what [os.geteuid()] returns and [run] is the shell. The call of
    [get_cmd] stands before the [try], so what it raises leaves [execute]. *)
Definition execute (family : string) (euid : Z) (run : pyval -> run_outcome)
    (cmd : Command) : outcome (bool * list exec_event) :=
  command <- get_cmd cmd family ;;
  if negb (truthy command) then Ok (false, [NotSupported family])
  else
    let out :=
      [RuleAbove; ExecutingLine (name cmd); DescriptionLine (description cmd)]
      ++ (if truthy (alias cmd) then [AliasLine (alias cmd)] else [])
      ++ [RuleBelow]
      ++ (if truthy (requires_root cmd) && negb (euid =? 0) then [RequiresRoot] else [])
      ++ [Spawn command] in
    match run command with
    | Returned returncode =>
        if returncode =? 0 then Ok (true, out ++ [Completed])
        else Ok (false, out ++ [ExitedWith returncode])
    | Interrupted => Ok (false, out ++ [InterruptedLine])
    | Failed e => Ok (false, out ++ [ErrorLine e])
    end.

End FastExecutor.

(** ** [AutomateCM.add_custom] *)

(** What [input()] meets at the keyboard: a line, an interrupt, or the end of
    the input. *)
Inductive key_event : Type :=
| Typed (line : string)
| CtrlC
| CtrlD.

(** What the front end shows, one constructor for each [print] and each
    prompt of [input]; [FromConfig] is a message of [ConfigManager]. *)
Inductive ui_event : Type :=
| Prompt (text : string)
| AddRuleAbove
| AddTitle
| AddRuleBelow
| EmptyAlias
| AllFieldsRequired
| Added (a : string)
| Cancelled
| FromConfig (m : message).

(** The part of the application [add_custom] works on: the file behind
    [self.config], [self.registry.commands], the terminal and the keys still
    to come. *)
Record Session : Type := mkSession {
  file : option file_content;
  registry : list Command;
  screen : list ui_event;
  keyboard : list key_event
}.

(** How a method ends: it returns, or an exception leaves it. *)
Inductive ending : Type :=
| Returns (s : Session)
| KeyboardInterrupt (s : Session)
| EOFError (s : Session).

Definition show (e : ui_event) (s : Session) : Session :=
  {| file := file s; registry := registry s;
     screen := screen s ++ [e]; keyboard := keyboard s |}.

(** [input(prompt)] followed by the rest of the method. *)
Definition input (prompt : string) (s : Session) (rest : string -> Session -> ending) : ending :=
  let s := show (Prompt prompt) s in
  match keyboard s with
  | [] => EOFError s
  | Typed line :: keys =>
      rest line {| file := file s; registry := registry s;
                   screen := screen s; keyboard := keys |}
  | CtrlC :: keys =>
      KeyboardInterrupt {| file := file s; registry := registry s;
                           screen := screen s; keyboard := keys |}
  | CtrlD :: keys =>
      EOFError {| file := file s; registry := registry s;
                  screen := screen s; keyboard := keys |}
  end.

Module AutomateCM.

Section FrontEnd.

Variable str_lower : string -> string.
Variable str_strip : string -> string.

(** [bool(s)] for a [str]. *)
Definition nonempty (s : string) : bool := negb (String.eqb s "").

(** [self.config.add_custom(...)] on the file of the session; what
    [ConfigManager] prints goes to the screen. *)
Definition config_add_custom (fault : io_fault) (a n desc cmd : string) (root : bool)
    (s : Session) : bool * Session :=
  let '(added, w) :=
    ConfigManager.add_custom fault a n desc cmd root
      {| config_file := file s; stdout := [] |} in
  (added, {| file := config_file w; registry := registry s;
             screen := screen s ++ map FromConfig (stdout w);
             keyboard := keyboard s |}).

Definition registry_reload (s : Session) : Session :=
  {| file := file s;
     registry := CommandRegistry.reload {| config_file := file s; stdout := [] |} (registry s);
     screen := screen s; keyboard := keyboard s |}.

Definition add_custom (fault : io_fault) (s : Session) : ending :=
  let s := show AddRuleBelow (show AddTitle (show AddRuleAbove s)) in
  let body :=
    input "Alias: " s (fun line s =>
    let a := str_strip line in
    if negb (nonempty a) then Returns (show EmptyAlias s)
    else
      input "Name: " s (fun line s =>
      let n := str_strip line in
      input "Description: " s (fun line s =>
      let desc := str_strip line in
      input "Command: " s (fun line s =>
      let cmd := str_strip line in
      if negb (nonempty n && nonempty desc && nonempty cmd) then
        Returns (show AllFieldsRequired s)
      else
        input "Root? (y/N): " s (fun line s =>
        let root := String.eqb (str_lower (str_strip line)) "y" in
        let '(added, s) := config_add_custom fault a n desc cmd root s in
        if added then Returns (registry_reload (show (Added a) s))
        else Returns s))))) in
  match body with
  | KeyboardInterrupt s => Returns (show Cancelled s)
  | Returns s => Returns s
  | EOFError s => EOFError s
  end.

End FrontEnd.

End AutomateCM.

(** * The vocabulary of the properties *)

Import ConfigManager.

Definition custom (c : Command) : Prop := truthy (is_custom c).

Definition has_key (k : string) (d : list (string * pyval)) : bool :=
  match dict_lookup k d with
  | Some _ => true
  | None => false
  end.

(** A record that becomes a command: an object whose keys are all fields of
    [Command], [name], [description] and [commands] among them. *)
Definition accepted_record (r : pyval) : bool :=
  match r with
  | PDict d =>
      forallb (fun kv => bool_decide (kv.1 ∈ field_names)) d
      && has_key "name" d && has_key "description" d && has_key "commands" d
  | _ => false
  end.

(** The command an accepted record becomes: each field is the value of its
    key, and the three optional fields default to [False], [False], [None]. *)
Definition record_fields (r : pyval) : Command :=
  let d := match r with PDict d => d | _ => [] end in
  {| name := dict_get d "name";
     description := dict_get d "description";
     commands := dict_get d "commands";
     requires_root := default (PBool false) (dict_lookup "requires_root" d);
     is_custom := default (PBool false) (dict_lookup "is_custom" d);
     alias := default PNone (dict_lookup "alias" d) |}.

Definition aliases (cmds : list Command) : list pyval :=
  alias <$> filter custom cmds.

Definition nonempty_alias (c : Command) : Prop :=
  exists s : string, alias c = PStr s /\ s <> "".

(** Among the custom entries, the aliases are pairwise distinct and each is a
    non-empty string. *)
Definition alias_invariant (cmds : list Command) : Prop :=
  NoDup (aliases cmds) /\ Forall nonempty_alias (filter custom cmds).

(** An entry whose alias is not [a]: the filter of [remove_custom]. *)
Definition other_alias (a : string) (c : Command) : Prop :=
  negb (py_eq_str (alias c) a).

Definition builtin_commands : list Command := CommandRegistry._register_builtin [].

(** [get_cmd] returns a command text: the family is a key of [commands]. *)
Definition resolvable (c : Command) (family : string) : Prop :=
  exists v : pyval, get_cmd c family = Ok v /\ v <> PNone.

Definition created_by_add_custom (c : Command) : Prop :=
  exists (a n desc cmd : string) (root : bool), c = new_cmd a n desc cmd root.

(** The files this program leaves behind: no file at first, then any sequence
    of [add_custom] and [remove_custom], whether their writes fail or not. *)
Inductive managed : World -> Prop :=
| managed_fresh (out : list message) :
    managed {| config_file := None; stdout := out |}
| managed_add (fault : io_fault) (a n desc cmd : string) (root : bool) (w : World) :
    managed w -> managed (add_custom fault a n desc cmd root w).2
| managed_remove (fault : io_fault) (a : string) (w : World) :
    managed w -> managed (remove_custom fault a w).2.

(** The registries built over such files: [__init__], then any number of
    [reload]. *)
Inductive catalog : list Command -> Prop :=
| catalog_init (w : World) :
    managed w -> catalog (CommandRegistry.init w)
| catalog_reload (w : World) (cat : list Command) :
    managed w -> catalog cat -> catalog (CommandRegistry.reload w cat).

Fixpoint char_in (c : ascii) (s : string) : bool :=
  match s with
  | EmptyString => false
  | String a s' => Ascii.eqb a c || char_in c s'
  end.

(** The session a method ends in. *)
Definition final (e : ending) : Session :=
  match e with
  | Returns s | KeyboardInterrupt s | EOFError s => s
  end.

(** What [load_custom] returns over the file of the session. *)
Definition stored (s : Session) : list Command :=
  load_custom {| config_file := file s; stdout := [] |}.

(** The session after [input(prompt)] has shown its prompt and taken a key:
    [keys] are the keys still to come. *)
Definition advance (prompt : string) (keys : list key_event) (s : Session) : Session :=
  {| file := file s; registry := registry s;
     screen := screen s ++ [Prompt prompt]; keyboard := keys |}.

(** The event is the start of a process. *)
Definition is_spawn (e : exec_event) : bool :=
  match e with
  | Spawn _ => true
  | _ => false
  end.

(** The text made of [n] times the character [c]. *)
Fixpoint run_of (c : ascii) (n : nat) : string :=
  match n with
  | O => EmptyString
  | S n' => String c (run_of c n')
  end.

(** The four keyword sets, in the order in which they are tried. *)
Definition keyword_sets : list (DistroFamily * list string) :=
  [(DEBIAN, ["ubuntu"; "debian"; "mint"; "pop"; "kali"]);
   (REDHAT, ["rhel"; "fedora"; "centos"; "rocky"; "alma"]);
   (ARCH, ["arch"; "manjaro"; "endeavour"]);
   (SUSE, ["suse"; "opensuse"])].

(** A keyword of the set occurs in the (lower-cased) [ID] or [ID_LIKE]. *)
Definition matches (distro_id distro_like : string) (keywords : list string) : bool :=
  existsb (fun x => str_in x distro_id || str_in x distro_like) keywords.

(** The family of the first set that matches; [UNKNOWN] when none does. *)
Fixpoint first_match (distro_id distro_like : string)
    (sets : list (DistroFamily * list string)) : DistroFamily :=
  match sets with
  | [] => UNKNOWN
  | (family, keywords) :: sets' =>
      if matches distro_id distro_like keywords then family
      else first_match distro_id distro_like sets'
  end.

(** ** Sample files and entries *)

Definition no_file : World := {| config_file := None; stdout := [] |}.

(** A file written by hand: one record, with the three keys that have no
    default and nothing else. *)
Definition hand_written : World :=
  {| config_file :=
       Some (Foreign (Ok (PList
         [PDict [("name", PStr "Backup Home");
                 ("description", PStr "tar home dir");
                 ("commands", PDict [("debian", PStr "tar czf /tmp/home.tgz /home")])]])));
     stdout := [] |}.

Definition hand_written_entry : Command :=
  {| name := PStr "Backup Home";
     description := PStr "tar home dir";
     commands := PDict [("debian", PStr "tar czf /tmp/home.tgz /home")];
     requires_root := PBool false;
     is_custom := PBool false;
     alias := PNone |}.

Definition old_entry : Command := new_cmd "old" "Old" "an earlier command" "true" false.
Definition new_entry : Command := new_cmd "bkp" "Backup Home" "tar home dir" "tar czf /tmp/home.tgz /home" false.

(** The file after an earlier, successful [save_custom]. *)
Definition saved_before : World := (save_custom NoFault [old_entry] no_file).2.

(** A file written by hand, with two records: the first as [add_custom] would
    write it, the second without the optional keys [requires_root] and
    [is_custom]. *)
Definition two_records : World :=
  {| config_file :=
       Some (Foreign (Ok (PList
         [asdict old_entry;
          PDict [("name", PStr "Backup Home");
                 ("description", PStr "tar home dir");
                 ("commands", PDict [("debian", PStr "tar czf /tmp/home.tgz /home")]);
                 ("alias", PStr "bkp")]])));
     stdout := [] |}.

Definition second_record : Command :=
  {| name := PStr "Backup Home";
     description := PStr "tar home dir";
     commands := PDict [("debian", PStr "tar czf /tmp/home.tgz /home")];
     requires_root := PBool false;
     is_custom := PBool false;
     alias := PStr "bkp" |}.

(** Five lines are typed: an alias, a name, a description, a command, and
    [y] for root. *)
Definition typing_backup : Session :=
  {| file := config_file saved_before;
     registry := CommandRegistry.init saved_before;
     screen := [];
     keyboard := [Typed " bkp "; Typed "Backup Home"; Typed "tar home dir";
                  Typed "tar czf /tmp/home.tgz /home"; Typed "Y"] |}.

(** A file written by hand: one record with all six fields, custom, whose
    only command text is for [unknown]. *)
Definition unknown_entry : Command :=
  {| name := PStr "Hello";
     description := PStr "say hello";
     commands := PDict [("unknown", PStr "echo hello")];
     requires_root := PBool false;
     is_custom := PBool true;
     alias := PStr "hi" |}.

Definition unknown_by_hand : World :=
  {| config_file := Some (Foreign (Ok (PList [asdict unknown_entry]))); stdout := [] |}.

(** An [/etc/os-release] of three lines. *)
Definition ubuntu_release : list string :=
  ["ID=ubuntu" +:+ nl;
   "ID_LIKE=debian" +:+ nl;
   "PRETTY_NAME=" +:+ String "034"%char "Ubuntu 22.04 LTS" +:+ String "034"%char nl].

(** * Properties *)

(** ** Reading back what [save_custom] wrote *)

Lemma Command_kwargs_asdict (c : Command) : Command_kwargs (asdict c) = Ok c.
Proof. by destruct c. Qed.

Lemma comprehension_asdict (l : list Command) :
  comprehension Command_kwargs (map asdict l) = Ok l.
Proof.
  induction l as [|c l IH]; [done|].
  cbn [map comprehension]. by rewrite Command_kwargs_asdict, IH.
Qed.

Lemma load_custom_Dumped (l : list Command) (out : list message) :
  load_custom {| config_file := Some (Dumped (PList (map asdict l))); stdout := out |} = l.
Proof. unfold load_custom. cbn. by rewrite comprehension_asdict. Qed.

Lemma load_custom_save_NoFault (cmds : list Command) (w : World) :
  load_custom (save_custom NoFault cmds w).2 = filter custom cmds.
Proof. exact (load_custom_Dumped (filter custom cmds) (stdout w)). Qed.

Lemma load_custom_save_OpenFails (cmds : list Command) (w : World) :
  load_custom (save_custom OpenFails cmds w).2 = load_custom w.
Proof. done. Qed.

Lemma load_custom_save_WriteFails (cmds : list Command) (w : World) :
  load_custom (save_custom WriteFails cmds w).2 = [].
Proof. done. Qed.

Lemma filter_custom_idemp (l : list Command) :
  filter custom (filter custom l) = filter custom l.
Proof.
  induction l as [|c l IH]; [done|].
  rewrite filter_cons. case_decide as Hc; [|done].
  rewrite filter_cons. rewrite decide_True by done. by rewrite IH.
Qed.

(** ** The round trip of [save_custom] and [load_custom] *)

(** C9. Whatever [save_custom] wrote, saving what [load_custom] then returns
    writes exactly the same file again, byte for byte: the file is again the
    [json.dump] text of the same value (and nothing is printed). *)
Theorem save_load_idempotent (cmds : list Command) (w0 : World) :
  let w := (save_custom NoFault cmds w0).2 in
  (save_custom NoFault (load_custom w) w).2 = w.
Proof.
  intros w. subst w. rewrite load_custom_save_NoFault.
  cbn. change (filter _ (filter _ cmds)) with (filter custom (filter custom cmds)).
  by rewrite filter_custom_idemp.
Qed.

(** A file that [save_custom] did not write need not come back the same: the
    hand-written record is not custom, and saving what was loaded drops it. *)
Example save_load_rewrites_hand_written :
  config_file (save_custom NoFault (load_custom hand_written) hand_written).2 =
    Some (Dumped (PList [])).
Proof. done. Qed.

(** ** Positional lookup in the registry *)

(** C8. [get] never raises: inside [0, length) it returns the command at that
    position, everywhere else (negative indices included) it returns [None]. *)
Theorem get_in_range_or_None (cmds : list Command) (idx : Z) :
  CommandRegistry.get cmds idx =
    Ok (if decide (0 <= idx < Z.of_nat (length cmds)) then cmds !! Z.to_nat idx else None)
  /\ (0 <= idx < Z.of_nat (length cmds) ->
      exists c, cmds !! Z.to_nat idx = Some c /\ CommandRegistry.get cmds idx = Ok (Some c))
  /\ (~ 0 <= idx < Z.of_nat (length cmds) -> CommandRegistry.get cmds idx = Ok None).
Proof.
  assert (Hin : 0 <= idx < Z.of_nat (length cmds) ->
                exists c, cmds !! Z.to_nat idx = Some c /\
                          CommandRegistry.get cmds idx = Ok (Some c)).
  { intros [Hlo Hhi].
    destruct (lookup_lt_is_Some_2 cmds (Z.to_nat idx)) as [c Hc]; [lia|].
    exists c. split; [done|].
    unfold CommandRegistry.get, py_getitem.
    rewrite (proj2 (Z.leb_le 0 idx)), (proj2 (Z.ltb_lt idx _)) by lia.
    rewrite (proj2 (Z.ltb_ge idx 0)) by lia. cbn.
    rewrite (proj2 (Z.ltb_ge idx 0)) by lia. by rewrite Hc. }
  assert (Hout : ~ 0 <= idx < Z.of_nat (length cmds) ->
                 CommandRegistry.get cmds idx = Ok None).
  { intros Hno. unfold CommandRegistry.get.
    destruct (0 <=? idx) eqn:Hlo; [|done].
    destruct (idx <? Z.of_nat (length cmds)) eqn:Hhi; [|done].
    apply Z.leb_le in Hlo. apply Z.ltb_lt in Hhi. lia. }
  split; [|by split].
  case_decide as Hr.
  - destruct (Hin Hr) as (c & Hc & ->). by rewrite Hc.
  - by apply Hout.
Qed.

(** ** The command [add_custom] builds *)

(** C7. When [add_custom] succeeds, the list it hands to [save_custom] is the
    loaded list followed by the new command; the new command maps each of the
    five family tags (and nothing else) to the given command text, is custom
    and carries the given alias; when the write goes through, the file holds
    the custom entries that were loaded, followed by the new command. *)
Theorem add_custom_universal (fault : io_fault) (a n desc cmd : string) (root : bool)
    (w w' : World) :
  add_custom fault a n desc cmd root w = (true, w') ->
  let c := new_cmd a n desc cmd root in
  w' = (save_custom fault (load_custom w ++ [c]) w).2
  /\ (forall f : DistroFamily, get_cmd c (value f) = Ok (PStr cmd))
  /\ (exists d, commands c = PDict d /\
                map fst d = map value [DEBIAN; REDHAT; ARCH; SUSE; UNKNOWN])
  /\ is_custom c = PBool true
  /\ alias c = PStr a
  /\ (fault = NoFault -> load_custom w' = filter custom (load_custom w) ++ [c]).
Proof.
  intros Hadd c. unfold add_custom in Hadd.
  destruct (existsb _ (load_custom w)); [done|].
  fold c in Hadd.
  destruct (save_custom fault (load_custom w ++ [c]) w) as [u w1] eqn:Hsave.
  injection Hadd as <-.
  split; [done|]. split; [by intros []|]. split; [by eexists|].
  split; [done|]. split; [done|].
  intros ->. change w1 with (u, w1).2. rewrite <- Hsave.
  rewrite load_custom_save_NoFault, filter_app.
  f_equal.
Qed.

Lemma add_custom_universal_witness :
  let c := new_cmd "bkp" "Backup Home" "tar home dir" "tar czf /tmp/home.tgz /home" false in
  ConfigManager.load_custom
    (add_custom NoFault "bkp" "Backup Home" "tar home dir" "tar czf /tmp/home.tgz /home"
       false no_file).2 = [c]
  /\ forall f : DistroFamily, get_cmd c (value f) = Ok (PStr "tar czf /tmp/home.tgz /home").
Proof.
  intros c.
  destruct (add_custom_universal NoFault "bkp" "Backup Home" "tar home dir"
              "tar czf /tmp/home.tgz /home" false no_file _ eq_refl)
    as (_ & Hget & _ & _ & _ & Hload).
  split; [exact (Hload eq_refl)|exact Hget].
Defined.

(** ** What [load_custom] accepts *)

Lemma Command_kwargs_accepted (r : pyval) :
  Command_kwargs r = if accepted_record r then Ok (record_fields r) else Raise TypeError.
Proof.
  destruct r as [| | | | |l|d]; try done.
  unfold Command_kwargs, accepted_record, record_fields, has_key, dict_get.
  assert (Hkeys : forallb (fun kv => existsb (String.eqb kv.1) field_names) d =
                  forallb (fun kv => bool_decide (kv.1 ∈ field_names)) d).
  { induction d as [|[k v] d IH]; [done|].
    cbn [forallb fst]. rewrite IH. f_equal.
    apply eq_true_iff_eq. rewrite bool_decide_eq_true.
    unfold field_names. cbn [existsb].
    rewrite !orb_true_iff, !String.eqb_eq, !elem_of_cons, elem_of_nil.
    intuition congruence. }
  rewrite Hkeys. clear Hkeys. destruct (forallb _ d); [|done]. cbn [andb].
  by destruct (dict_lookup "name" d), (dict_lookup "description" d),
       (dict_lookup "commands" d).
Qed.

Lemma comprehension_all_or_nothing (l : list pyval) :
  comprehension Command_kwargs l =
    if forallb accepted_record l then Ok (map record_fields l) else Raise TypeError.
Proof.
  induction l as [|r l IH]; [done|].
  cbn [comprehension forallb map]. rewrite Command_kwargs_accepted, IH.
  by destruct (accepted_record r), (forallb accepted_record l).
Qed.

(** C3 (amended). In every state where asking whether the file exists gives
    an answer, [load_custom] returns, and never raises: it returns the empty
    list when the file does not exist, cannot be read or parsed, holds
    anything but a list, or holds one record that is not an object, has a key
    that is no field of [Command], or lacks [name], [description] or
    [commands]; otherwise it returns one command per record, in order, each
    field being the value the record gives and [requires_root], [is_custom],
    [alias] defaulting to [False], [False], [None].  It never returns part of
    the records.  The values are not checked, so an entry is custom only when
    its record says so; every entry read from a file that [save_custom] wrote
    is custom. *)
Theorem load_custom_all_or_nothing (w : World) :
  load_custom_call (Searchable w) =
    Ok match config_file w with
       | None => []
       | Some f =>
           match json_load f with
           | Ok (PList l) => if forallb accepted_record l then map record_fields l else []
           | _ => []
           end
       end
  /\ forall (cmds : list Command) (w0 : World),
       w = (save_custom NoFault cmds w0).2 ->
       exists l, load_custom_call (Searchable w) = Ok l /\ Forall custom l.
Proof.
  split.
  - cbn [load_custom_call]. f_equal.
    unfold load_custom. destruct (config_file w) as [f|]; [|done].
    destruct (json_load f) as [v|e]; [|done].
    destruct v as [| | | |s|l|d]; try done.
    + cbn. by destruct s.
    + cbn [bind py_iter]. rewrite comprehension_all_or_nothing.
      by destruct (forallb accepted_record l).
    + cbn. by destruct d.
  - intros cmds w0 ->. eexists. split; [done|].
    rewrite load_custom_save_NoFault.
    apply Forall_forall. intros c Hc. by apply list_elem_of_filter in Hc as [Hc _].
Qed.

Lemma load_custom_all_or_nothing_witness :
  exists l,
    load_custom_call
      (Searchable (save_custom NoFault [new_cmd "bkp" "Backup Home" "d" "true" false]
                     no_file).2) = Ok l
    /\ Forall custom l.
Proof.
  exact (proj2 (load_custom_all_or_nothing _) _ no_file eq_refl).
Defined.

(** Where the question whether the file exists raises, the calls raise: the
    error passes through [load_custom] and through [add_custom],
    [remove_custom] and [__init__], which write and print nothing; [reload]
    has by then dropped the custom entries of the registry. *)
Lemma unsearchable_calls (fault : io_fault) (a n desc cmd : string) (root : bool)
    (self_commands : list Command) :
  load_custom_call Unsearchable = Raise OSError
  /\ add_custom_call fault a n desc cmd root Unsearchable = (Raise OSError, Unsearchable)
  /\ remove_custom_call fault a Unsearchable = (Raise OSError, Unsearchable)
  /\ init_call Unsearchable = Raise OSError
  /\ reload_call Unsearchable self_commands =
       (filter (fun c => ~ custom c) self_commands, Raise OSError).
Proof.
  do 4 (split; [done|]). cbn [reload_call]. f_equal.
  apply list_filter_iff. intros c. apply negb_True.
Qed.

(** C3 as stated fails: the record lacks [requires_root], [is_custom] and
    [alias], yet it is loaded, as an entry that is not custom. *)
Lemma load_custom_not_all_custom :
  load_custom hand_written = [hand_written_entry]
  /\ ~ Forall custom (load_custom hand_written).
Proof.
  split; [done|].
  intros H. apply Forall_cons in H as [H _]. exact H.
Qed.

(** Nor are the values of a record checked: a number is taken as a name. *)
Lemma load_custom_unchecked_values :
  load_custom
    {| config_file :=
         Some (Foreign (Ok (PList [PDict [("name", PInt 1);
                                          ("description", PNone);
                                          ("commands", PStr "ls")]])));
       stdout := [] |} =
  [{| name := PInt 1; description := PNone; commands := PStr "ls";
      requires_root := PBool false; is_custom := PBool false; alias := PNone |}].
Proof. done. Qed.

(** One record that is not accepted empties the whole load. *)
Example load_custom_never_partial :
  load_custom
    {| config_file := Some (Foreign (Ok (PList [asdict old_entry; PDict [("name", PStr "x")]])));
       stdout := [] |} = []
  /\ load_custom
       {| config_file :=
            Some (Foreign (Ok (PList [asdict old_entry;
                                      PDict [("name", PStr "x"); ("description", PStr "y");
                                             ("commands", PDict []); ("colour", PStr "red")]])));
          stdout := [] |} = []
  /\ load_custom {| config_file := Some (Foreign (Raise JSONDecodeError)); stdout := [] |} = []
  /\ load_custom {| config_file := Some (Foreign (Ok (PDict [("name", PStr "x")]))); stdout := [] |} = [].
Proof. done. Qed.

(** ** How [save_custom] writes *)

(** C2 (amended). [save_custom] keeps the custom entries, and when nothing
    fails the file becomes their [json.dump] text.  The file is written in
    place: when it cannot be opened for writing its content stays as it was;
    when writing stops half-way a truncated file is left, which loads as the
    empty list.  Either failure is printed, never raised, and [save_custom]
    returns the same [None] as after a successful write. *)
Theorem save_custom_in_place (cmds : list Command) (w : World) :
  let data := map asdict (filter custom cmds) in
  (save_custom NoFault cmds w).2 =
    {| config_file := Some (Dumped (PList data)); stdout := stdout w |}
  /\ load_custom (save_custom NoFault cmds w).2 = filter custom cmds
  /\ (save_custom OpenFails cmds w).2 =
       {| config_file := config_file w; stdout := stdout w ++ [ErrorSaving OSError] |}
  /\ (save_custom WriteFails cmds w).2 =
       {| config_file := Some (Truncated data);
          stdout := stdout w ++ [ErrorSaving OSError] |}
  /\ load_custom (save_custom WriteFails cmds w).2 = []
  /\ forall fault, (save_custom fault cmds w).1 = (save_custom NoFault cmds w).1.
Proof.
  intros data. split; [done|]. split; [apply load_custom_save_NoFault|].
  split; [done|]. split; [done|]. split; [done|]. by intros [].
Qed.

(** C2 as stated fails: a write that stops half-way leaves a file that is
    neither the one before nor the one a complete write gives; the valid
    content that was there is lost. *)
Lemma save_custom_not_atomic :
  let w' := (save_custom WriteFails [new_entry] saved_before).2 in
  config_file w' <> config_file saved_before
  /\ config_file w' <> config_file (save_custom NoFault [new_entry] saved_before).2
  /\ load_custom saved_before = [old_entry]
  /\ load_custom w' = [].
Proof. cbn. by repeat split. Qed.

(** ** The aliases of the custom entries *)

Lemma py_eq_str_true (v : pyval) (s : string) : py_eq_str v s = true <-> v = PStr s.
Proof.
  destruct v; cbn; try (split; [discriminate|congruence]).
  rewrite String.eqb_eq. split; congruence.
Qed.

Lemma existsb_alias (a : string) (l : list Command) :
  existsb (fun c => py_eq_str (alias c) a) l = true <-> PStr a ∈ alias <$> l.
Proof.
  rewrite existsb_exists, list_elem_of_fmap. split.
  - intros (c & Hc & Heq). exists c. apply py_eq_str_true in Heq.
    by rewrite <- list_elem_of_In in Hc.
  - intros (c & Heq & Hc). exists c. rewrite <- list_elem_of_In.
    split; [done|]. by apply py_eq_str_true.
Qed.

Lemma alias_present_dec (a : string) (l : list Command) :
  {PStr a ∈ alias <$> l} + {PStr a ∉ alias <$> l}.
Proof.
  destruct (existsb (fun c => py_eq_str (alias c) a) l) eqn:Hex.
  - left. by apply existsb_alias.
  - right. rewrite <- existsb_alias, Hex. discriminate.
Qed.

Lemma filter_all {A : Type} (P : A -> Prop) `{!forall x, Decision (P x)} (l : list A) :
  Forall P l -> filter P l = l.
Proof.
  induction 1 as [|x l Hx _ IH]; [done|].
  by rewrite filter_cons_True, IH.
Qed.

Lemma alias_invariant_nil : alias_invariant [].
Proof. split; [constructor|by constructor]. Qed.

Lemma alias_invariant_filter_custom (l : list Command) :
  alias_invariant (filter custom l) <-> alias_invariant l.
Proof. unfold alias_invariant, aliases. by rewrite filter_custom_idemp. Qed.

Lemma alias_invariant_filter (P : Command -> Prop) `{!forall c, Decision (P c)}
    (l : list Command) :
  alias_invariant l -> alias_invariant (filter P l).
Proof.
  intros [Hnd Hne]. unfold alias_invariant, aliases.
  assert (Hsub : filter custom (filter P l) `sublist_of` filter custom l).
  { rewrite list_filter_filter.
    rewrite <- (list_filter_filter_l (fun c => custom c /\ P c) custom l) by tauto.
    apply sublist_filter. }
  split.
  - eapply sublist_NoDup; [exact Hnd|]. by apply fmap_sublist.
  - apply Forall_forall. intros c Hc.
    eapply Forall_forall in Hne; [exact Hne|].
    by apply (sublist_subseteq _ _ Hsub).
Qed.

Lemma other_alias_iff (a : string) (c : Command) : other_alias a c <-> alias c <> PStr a.
Proof.
  unfold other_alias. rewrite <- py_eq_str_true.
  destruct (py_eq_str (alias c) a); cbn; intuition congruence.
Qed.

Lemma add_custom_present (fault : io_fault) (a n desc cmd : string) (root : bool) (w : World) :
  PStr a ∈ alias <$> load_custom w ->
  add_custom fault a n desc cmd root w = (false, print (AliasExists a) w).
Proof. intros Hin%existsb_alias. unfold add_custom. by rewrite Hin. Qed.

Lemma add_custom_fresh (fault : io_fault) (a n desc cmd : string) (root : bool) (w : World) :
  PStr a ∉ alias <$> load_custom w ->
  add_custom fault a n desc cmd root w =
    (true, (save_custom fault (load_custom w ++ [new_cmd a n desc cmd root]) w).2).
Proof.
  intros Hnot. unfold add_custom.
  destruct (existsb _ (load_custom w)) eqn:Hex.
  - by apply existsb_alias in Hex.
  - by destruct (save_custom fault _ w).
Qed.

Lemma filter_other_alias_absent (a : string) (l : list Command) :
  PStr a ∉ alias <$> l -> filter (other_alias a) l = l.
Proof.
  intros Hnot. apply filter_all, Forall_forall. intros c Hc.
  apply other_alias_iff. intros Heq. apply Hnot.
  rewrite <- Heq. by apply list_elem_of_fmap_2.
Qed.

Lemma remove_custom_absent (fault : io_fault) (a : string) (w : World) :
  PStr a ∉ alias <$> load_custom w -> remove_custom fault a w = (false, w).
Proof.
  intros Hnot. unfold remove_custom.
  change (filter _ (load_custom w)) with (filter (other_alias a) (load_custom w)).
  rewrite filter_other_alias_absent by done. by rewrite Nat.eqb_refl.
Qed.

Lemma remove_custom_present (fault : io_fault) (a : string) (w : World) :
  PStr a ∈ alias <$> load_custom w ->
  remove_custom fault a w =
    (true, (save_custom fault (filter (other_alias a) (load_custom w)) w).2).
Proof.
  intros (c & Heq & Hc)%list_elem_of_fmap. unfold remove_custom.
  change (filter _ (load_custom w)) with (filter (other_alias a) (load_custom w)).
  assert (Hlt : (length (filter (other_alias a) (load_custom w)) < length (load_custom w))%nat).
  { apply (length_filter_lt _ _ c); [done|]. rewrite other_alias_iff. by intros []. }
  rewrite (proj2 (Nat.eqb_neq _ _)) by lia.
  by destruct (save_custom fault _ w).
Qed.

Lemma alias_invariant_save (fault : io_fault) (cmds : list Command) (w : World) :
  alias_invariant (load_custom w) -> alias_invariant cmds ->
  alias_invariant (load_custom (save_custom fault cmds w).2).
Proof.
  intros Hw Hcmds. destruct fault.
  - rewrite load_custom_save_NoFault. by apply alias_invariant_filter_custom.
  - by rewrite load_custom_save_OpenFails.
  - rewrite load_custom_save_WriteFails. apply alias_invariant_nil.
Qed.

Lemma alias_invariant_snoc (a n desc cmd : string) (root : bool) (l : list Command) :
  a <> "" -> PStr a ∉ alias <$> l -> alias_invariant l ->
  alias_invariant (l ++ [new_cmd a n desc cmd root]).
Proof.
  intros Ha Hnot [Hnd Hne]. unfold alias_invariant, aliases.
  rewrite filter_app, fmap_app.
  change (filter custom [new_cmd a n desc cmd root]) with [new_cmd a n desc cmd root].
  split.
  - apply NoDup_app. split; [done|]. split; [|apply NoDup_singleton].
    intros x Hx Hx'. apply list_elem_of_singleton in Hx'. subst x.
    apply Hnot. apply list_elem_of_fmap in Hx as (c & Heq & Hc).
    apply list_elem_of_filter in Hc as [_ Hc].
    cbn in Heq. rewrite Heq. by apply list_elem_of_fmap_2.
  - apply Forall_app. split; [done|]. apply Forall_singleton. by exists a.
Qed.

(** C1 (amended). [add_custom] with an alias some loaded entry already has
    returns [False] and leaves the file as it is.  The aliases of the custom
    entries stay pairwise distinct and non-empty under [remove_custom], under
    [add_custom] when the alias given is not empty ([add_custom] does not look
    at that itself), and under [save_custom] of a list whose custom entries
    have such aliases. *)
Theorem alias_invariant_preserved (fault : io_fault) (w : World) :
  (forall (a n desc cmd : string) (root : bool),
      PStr a ∈ alias <$> load_custom w ->
      add_custom fault a n desc cmd root w = (false, print (AliasExists a) w)
      /\ config_file (add_custom fault a n desc cmd root w).2 = config_file w
      /\ load_custom (add_custom fault a n desc cmd root w).2 = load_custom w)
  /\ (alias_invariant (load_custom w) ->
      (forall (a n desc cmd : string) (root : bool),
          a <> "" ->
          alias_invariant (load_custom (add_custom fault a n desc cmd root w).2))
      /\ (forall a : string, alias_invariant (load_custom (remove_custom fault a w).2))
      /\ (forall cmds : list Command,
            alias_invariant cmds ->
            alias_invariant (load_custom (save_custom fault cmds w).2))).
Proof.
  split.
  - intros a n desc cmd root Hin. by rewrite add_custom_present.
  - intros Hinv. split; [|split].
    + intros a n desc cmd root Ha.
      destruct (alias_present_dec a (load_custom w)) as [Hin|Hnot].
      * by rewrite add_custom_present.
      * rewrite add_custom_fresh by done. cbn [snd].
        apply alias_invariant_save; [done|]. by apply alias_invariant_snoc.
    + intros a.
      destruct (alias_present_dec a (load_custom w)) as [Hin|Hnot].
      * rewrite remove_custom_present by done. cbn [snd].
        apply alias_invariant_save; [done|]. by apply alias_invariant_filter.
      * by rewrite remove_custom_absent.
    + intros cmds Hcmds. by apply alias_invariant_save.
Qed.

Lemma alias_invariant_saved_before : alias_invariant (load_custom saved_before).
Proof.
  change (load_custom saved_before) with ([] ++ [old_entry]).
  apply alias_invariant_snoc; [done| |apply alias_invariant_nil].
  apply not_elem_of_nil.
Qed.

Lemma alias_invariant_preserved_witness :
  add_custom NoFault "old" "Old" "again" "true" false saved_before =
    (false, print (AliasExists "old") saved_before)
  /\ alias_invariant
       (load_custom (add_custom NoFault "bkp" "Backup Home" "tar home dir"
                       "tar czf /tmp/home.tgz /home" false saved_before).2)
  /\ alias_invariant (load_custom (remove_custom NoFault "old" saved_before).2).
Proof.
  destruct (alias_invariant_preserved NoFault saved_before) as [Hdup Hinv].
  destruct (Hinv alias_invariant_saved_before) as (Hadd & Hrem & _).
  split; [|split].
  - apply Hdup. apply list_elem_of_here.
  - apply Hadd. discriminate.
  - apply Hrem.
Defined.

(** C1 as stated fails: [add_custom] accepts the empty alias, and the
    persisted set then has a custom entry whose alias is empty. *)
Lemma add_custom_empty_alias :
  alias_invariant (load_custom no_file)
  /\ (add_custom NoFault "" "Backup Home" "tar home dir" "true" false no_file).1 = true
  /\ load_custom (add_custom NoFault "" "Backup Home" "tar home dir" "true" false no_file).2 =
       [new_cmd "" "Backup Home" "tar home dir" "true" false]
  /\ ~ alias_invariant
         (load_custom (add_custom NoFault "" "Backup Home" "tar home dir" "true" false no_file).2).
Proof.
  split; [apply alias_invariant_nil|]. split; [done|]. split; [done|].
  intros [_ Hne]. apply Forall_cons in Hne as [(s & Hs & Hne) _].
  injection Hs as <-. by apply Hne.
Qed.

(** ** [remove_custom] *)

(** C6 (amended). When no loaded entry has the alias, [remove_custom] returns
    [False] and touches nothing.  When some entry has it, [remove_custom]
    returns [True] and hands [save_custom] the loaded list without the entries
    of that alias, the others unchanged and in their order; that is the loaded
    list without one entry when the loaded aliases are pairwise distinct.
    [save_custom] keeps the custom entries only, so when the write goes
    through and all loaded entries are custom, the file then holds exactly
    that list. *)
Theorem remove_custom_filters (fault : io_fault) (a : string) (w : World) :
  (PStr a ∉ alias <$> load_custom w -> remove_custom fault a w = (false, w))
  /\ (PStr a ∈ alias <$> load_custom w ->
      remove_custom fault a w =
        (true, (save_custom fault (filter (other_alias a) (load_custom w)) w).2)
      /\ filter (other_alias a) (load_custom w) `sublist_of` load_custom w
      /\ (forall c, c ∈ filter (other_alias a) (load_custom w) <->
                    c ∈ load_custom w /\ alias c <> PStr a)
      /\ (NoDup (alias <$> load_custom w) ->
          exists l1 c l2, load_custom w = l1 ++ c :: l2 /\ alias c = PStr a /\
                          filter (other_alias a) (load_custom w) = l1 ++ l2)
      /\ (fault = NoFault -> Forall custom (load_custom w) ->
          load_custom (remove_custom fault a w).2 = filter (other_alias a) (load_custom w))).
Proof.
  split; [apply remove_custom_absent|].
  intros Hin. split; [by apply remove_custom_present|].
  split; [apply sublist_filter|]. split; [|split].
  - intros c. rewrite list_elem_of_filter, other_alias_iff. tauto.
  - intros Hnd. apply list_elem_of_fmap in Hin as (c & Heq & Hc).
    apply list_elem_of_split in Hc as (l1 & l2 & Hl).
    exists l1, c, l2. split; [done|]. split; [done|].
    rewrite Hl in Hnd |- *. rewrite fmap_app, fmap_cons, <- Heq in Hnd.
    apply NoDup_app in Hnd as (_ & Hl1 & Hnd). apply NoDup_cons in Hnd as [Hl2 _].
    rewrite filter_app, filter_cons_False.
    + rewrite !filter_other_alias_absent; [done|done|].
      intros Hx. apply (Hl1 _ Hx), list_elem_of_here.
    + rewrite other_alias_iff. by intros [].
  - intros -> Hall. rewrite remove_custom_present by done. cbn [snd].
    rewrite load_custom_save_NoFault. apply filter_all.
    apply Forall_forall. intros c [_ Hc]%list_elem_of_filter.
    by eapply Forall_forall in Hall.
Qed.

Lemma remove_custom_filters_witness :
  remove_custom NoFault "old" saved_before = (true, (save_custom NoFault [] saved_before).2)
  /\ load_custom (remove_custom NoFault "old" saved_before).2 = [].
Proof.
  destruct (remove_custom_filters NoFault "old" saved_before) as [_ Hin].
  destruct Hin as (Hrem & _ & _ & _ & Hload); [apply list_elem_of_here|].
  split; [exact Hrem|]. apply Hload; [done|].
  apply Forall_singleton. exact I.
Defined.

(** C6 as stated fails: removing one alias also drops the other entry, which
    has another alias, from the file. *)
Lemma remove_custom_drops_other_entry :
  load_custom two_records = [old_entry; second_record]
  /\ (remove_custom NoFault "old" two_records).1 = true
  /\ load_custom (remove_custom NoFault "old" two_records).2 = []
  /\ second_record ∉ load_custom (remove_custom NoFault "old" two_records).2.
Proof.
  split; [done|]. split; [done|]. split; [done|]. apply not_elem_of_nil.
Qed.

(** Nor does [True] mean that the entry is gone: when the file cannot be
    opened for writing, [remove_custom] still returns [True]. *)
Lemma remove_custom_true_without_write :
  (remove_custom OpenFails "old" saved_before).1 = true
  /\ load_custom (remove_custom OpenFails "old" saved_before).2 = [old_entry]
  /\ stdout (remove_custom OpenFails "old" saved_before).2 = [ErrorSaving OSError].
Proof. done. Qed.

(** ** The registry: built-in commands, then the loaded ones *)

Lemma builtin_commands_table :
  builtin_commands =
    map (fun '(n, desc, cmds, root) => Command_positional n desc cmds root)
      CommandRegistry.builtin.
Proof. reflexivity. Qed.

Lemma builtin_not_custom : filter (fun c => ~ custom c) builtin_commands = builtin_commands.
Proof. reflexivity. Qed.

Lemma reload_filter (w : World) (cmds : list Command) :
  CommandRegistry.reload w cmds = filter (fun c => ~ custom c) cmds ++ load_custom w.
Proof.
  unfold CommandRegistry.reload, CommandRegistry._load_custom. f_equal.
  apply list_filter_iff. intros c. apply negb_True.
Qed.

Lemma filter_not_custom_nil (l : list Command) :
  Forall custom l -> filter (fun c => ~ custom c) l = [].
Proof.
  induction 1 as [|c l Hc _ IH]; [done|].
  rewrite filter_cons_False; [done|tauto].
Qed.




(** ** Which entries resolve under the [unknown] family *)

Lemma Forall_load_custom_save (P : Command -> Prop) (fault : io_fault)
    (cmds : list Command) (w : World) :
  Forall P (load_custom w) -> Forall P cmds ->
  Forall P (load_custom (save_custom fault cmds w).2).
Proof.
  intros Hw Hcmds. destruct fault.
  - rewrite load_custom_save_NoFault. apply Forall_forall.
    intros c [_ Hc]%list_elem_of_filter. by eapply Forall_forall in Hcmds.
  - by rewrite load_custom_save_OpenFails.
  - rewrite load_custom_save_WriteFails. constructor.
Qed.

Lemma managed_created (w : World) :
  managed w -> Forall created_by_add_custom (load_custom w).
Proof.
  induction 1 as [out|fault a n desc cmd root w _ IH|fault a w _ IH].
  - constructor.
  - destruct (alias_present_dec a (load_custom w)) as [Hin|Hnot].
    + by rewrite add_custom_present.
    + rewrite add_custom_fresh by done. cbn [snd].
      apply Forall_load_custom_save; [done|].
      apply Forall_app. split; [done|].
      apply Forall_singleton. by exists a, n, desc, cmd, root.
  - destruct (alias_present_dec a (load_custom w)) as [Hin|Hnot].
    + rewrite remove_custom_present by done. cbn [snd].
      apply Forall_load_custom_save; [done|].
      apply Forall_forall. intros c [_ Hc]%list_elem_of_filter.
      by eapply Forall_forall in IH.
    + by rewrite remove_custom_absent.
Qed.

Lemma catalog_entries (cat : list Command) :
  catalog cat ->
  Forall (fun c => c ∈ builtin_commands \/ created_by_add_custom c) cat.
Proof.
  induction 1 as [w Hw|w cat Hw _ IH].
  - change (CommandRegistry.init w) with (builtin_commands ++ load_custom w).
    apply Forall_app. split.
    + apply Forall_forall. by left.
    + eapply Forall_impl; [by apply managed_created|]. by right.
  - rewrite reload_filter. apply Forall_app. split.
    + apply Forall_forall. intros c [_ Hc]%list_elem_of_filter.
      by eapply Forall_forall in IH.
    + eapply Forall_impl; [by apply managed_created|]. by right.
Qed.

Lemma builtin_four_families :
  Forall (fun c => (exists d, commands c = PDict d /\
                              d.*1 = ["debian"; "redhat"; "arch"; "suse"])
                   /\ get_cmd c "unknown" = Ok PNone)
    builtin_commands.
Proof. repeat constructor; by eexists. Qed.

(** C10 (amended). Every built-in command has exactly the four keys [debian],
    [redhat], [arch] and [suse], so [get_cmd] gives [None] for [unknown]; a
    command built by [add_custom] resolves under [unknown] to its command
    text; in a registry that starts with the built-in commands, an entry that
    resolves under [unknown] is never one of them, it is among the entries
    that follow; and in a registry over the files this program writes, the
    entries that resolve under [unknown] are exactly those built by
    [add_custom]. *)
Theorem unknown_only_for_custom :
  (forall c : Command, c ∈ builtin_commands ->
      (exists d, commands c = PDict d /\ d.*1 = ["debian"; "redhat"; "arch"; "suse"])
      /\ get_cmd c "unknown" = Ok PNone
      /\ ~ resolvable c "unknown")
  /\ (forall (a n desc cmd : string) (root : bool),
        get_cmd (new_cmd a n desc cmd root) "unknown" = Ok (PStr cmd))
  /\ (forall (rest : list Command) (c : Command),
        c ∈ builtin_commands ++ rest -> resolvable c "unknown" ->
        c ∈ rest /\ c ∉ builtin_commands)
  /\ (forall (cat : list Command) (c : Command),
        catalog cat -> c ∈ cat ->
        (resolvable c "unknown" <-> created_by_add_custom c)
        /\ (created_by_add_custom c <-> c ∉ builtin_commands)).
Proof.
  assert (Hb : forall c, c ∈ builtin_commands ->
                 (exists d, commands c = PDict d /\
                            d.*1 = ["debian"; "redhat"; "arch"; "suse"])
                 /\ get_cmd c "unknown" = Ok PNone
                 /\ ~ resolvable c "unknown").
  { intros c Hc. eapply Forall_forall in Hc; [|exact builtin_four_families].
    destruct Hc as [Hd Hget]. split; [done|]. split; [done|].
    intros (v & Hv & Hne). congruence. }
  assert (Hnew : forall c, created_by_add_custom c ->
                   resolvable c "unknown" /\ c ∉ builtin_commands).
  { intros c (a & n & desc & cmd & root & ->). split.
    - by exists (PStr cmd).
    - intros Hin. apply Hb in Hin as (_ & Hget & _). discriminate. }
  split; [exact Hb|]. split; [done|]. split.
  { intros rest c Hin Hres.
    assert (Hnot : c ∉ builtin_commands).
    { intros Hc. by apply Hb in Hc as (_ & _ & Hno). }
    split; [|done]. apply elem_of_app in Hin as [Hin|Hin]; [by destruct Hnot|done]. }
  intros cat c Hcat Hc.
  eapply Forall_forall in Hc; [|by apply catalog_entries].
  destruct Hc as [Hc|Hc].
  - split; split; intros H.
    + by apply Hb in Hc as (_ & _ & Hno).
    + by apply Hnew in H as [_ Hnot].
    + by apply Hnew in H as [_ Hnot].
    + done.
  - split; split; intros H; try done; by apply Hnew.
Qed.

Lemma unknown_only_for_custom_witness :
  resolvable new_entry "unknown" <-> created_by_add_custom new_entry.
Proof.
  apply (proj2 (proj2 (proj2 unknown_only_for_custom))
           (CommandRegistry.init
              (add_custom NoFault "bkp" "Backup Home" "tar home dir"
                 "tar czf /tmp/home.tgz /home" false no_file).2)).
  - apply catalog_init, managed_add, (managed_fresh []).
  - change (CommandRegistry.init _) with (builtin_commands ++ [new_entry]).
    apply elem_of_app. right. apply list_elem_of_here.
Defined.

(** C10 as stated fails: the record written by hand has all six fields and a
    text for [unknown] only; it is loaded into the registry and resolves
    under [unknown], and [add_custom] did not build it. *)
Lemma unknown_without_add_custom :
  CommandRegistry.init unknown_by_hand = builtin_commands ++ [unknown_entry]
  /\ unknown_entry ∈ CommandRegistry.init unknown_by_hand
  /\ get_cmd unknown_entry "unknown" = Ok (PStr "echo hello")
  /\ resolvable unknown_entry "unknown"
  /\ ~ created_by_add_custom unknown_entry.
Proof.
  split; [done|]. split.
  { apply elem_of_app. right. apply list_elem_of_here. }
  split; [done|]. split; [by exists (PStr "echo hello")|].
  intros (a & n & desc & cmd & root & Heq). discriminate.
Qed.

(** ** The classification of [detect_distro] *)

Lemma prefix_spec (x s : string) :
  String.prefix x s = true <-> exists post, s = x +:+ post.
Proof.
  revert s. induction x as [|a x IH]; intros [|b s]; cbn.
  - split; [by exists EmptyString|done].
  - split; [by exists (String b s)|done].
  - split; [done|]. by intros [post Hpost].
  - destruct (ascii_dec a b) as [->|Hne].
    + rewrite IH. split; intros [post Hpost]; exists post.
      * by rewrite Hpost.
      * by injection Hpost.
    + split; [done|]. intros [post Hpost]. by injection Hpost.
Qed.

(** [str_in x s] holds exactly when [s] is some text, then [x], then some
    text. *)
Lemma str_in_spec (x s : string) :
  str_in x s = true <-> exists pre post, s = pre +:+ x +:+ post.
Proof.
  induction s as [|b s IH]; cbn [str_in]; rewrite orb_true_iff, prefix_spec.
  - split.
    + intros [[post Hpost]|Hf]; [|done]. by exists EmptyString, post.
    + intros (pre & post & Heq). left. exists post.
      destruct pre; [done|discriminate].
  - rewrite IH. split.
    + intros [[post Hpost]|(pre & post & Heq)].
      * by exists EmptyString, post.
      * exists (String b pre), post. by rewrite Heq.
    + intros (pre & post & Heq). destruct pre as [|c pre].
      * left. by exists post.
      * right. exists pre, post. by injection Heq.
Qed.

Lemma append_nil (s : string) : "" +:+ s = s.
Proof. reflexivity. Qed.

Lemma append_cons (a : ascii) (s t : string) : String a s +:+ t = String a (s +:+ t).
Proof. reflexivity. Qed.

Lemma prefix_app_sep (x a b : string) (c : ascii) :
  char_in c x = false ->
  String.prefix x (a +:+ String c b) = String.prefix x a.
Proof.
  revert a. induction x as [|d x IH]; intros a Hc; [by destruct a|].
  cbn in Hc. apply orb_false_iff in Hc as [Hd Hx].
  destruct a as [|e a]; rewrite ?append_nil, ?append_cons; cbn.
  - destruct (ascii_dec d c) as [->|Hne]; [|done].
    by rewrite Ascii.eqb_refl in Hd.
  - destruct (ascii_dec d e); [|done]. by apply IH.
Qed.

(** A keyword that does not hold the separator occurs in two texts joined by
    it exactly when it occurs in one of them. *)
Lemma str_in_app_sep (x a b : string) (c : ascii) :
  char_in c x = false ->
  str_in x (a +:+ String c b) = str_in x a || str_in x b.
Proof.
  intros Hc. induction a as [|e a IH].
  - rewrite append_nil. cbn [str_in].
    by rewrite <- (prefix_app_sep x EmptyString b c Hc), append_nil, orb_false_r.
  - rewrite append_cons. cbn [str_in]. rewrite IH.
    by rewrite <- (prefix_app_sep x (String e a) b c Hc), append_cons, orb_assoc.
Qed.

Lemma any_in_matches (keywords : list string) (a b : string) :
  forallb (fun x => negb (char_in " " x)) keywords = true ->
  any_in keywords (a +:+ " " +:+ b) = matches a b keywords.
Proof.
  induction keywords as [|x keywords IH]; [done|].
  cbn [forallb]. intros [Hx Hk]%andb_true_iff. apply negb_true_iff in Hx.
  unfold any_in, matches in *. cbn [existsb]. rewrite IH by done.
  f_equal. by apply str_in_app_sep.
Qed.

(** C5. [detect_distro] lower-cases [ID] and [ID_LIKE] (each taken as empty
    when absent), joins them with one space, and looks for the keywords of
    the debian, redhat, arch and suse sets, in this order, in that text; no
    keyword holds a space, so a keyword is found exactly when it occurs in
    one of the two fields.  The family is that of the first set with a
    keyword found, and [unknown] when there is none; the name is
    [PRETTY_NAME] when present and [Unknown Linux] otherwise.  A source that
    cannot be read gives what empty data gives. *)
Theorem classify_first_match (str_lower : string -> string) (data : gmap string string) :
  let distro_id := str_lower (default "" (data !! "ID")) in
  let distro_like := str_lower (default "" (data !! "ID_LIKE")) in
  classify str_lower data =
    (value (first_match distro_id distro_like keyword_sets),
     default "Unknown Linux" (data !! "PRETTY_NAME"))
  /\ (forall (family : DistroFamily) (keywords : list string),
        (family, keywords) ∈ keyword_sets ->
        any_in keywords (distro_id +:+ " " +:+ distro_like) =
          matches distro_id distro_like keywords)
  /\ (matches distro_id distro_like ["ubuntu"; "debian"; "mint"; "pop"; "kali"] = true ->
      (classify str_lower data).1 = "debian")
  /\ ((forall (family : DistroFamily) (keywords : list string),
         (family, keywords) ∈ keyword_sets ->
         matches distro_id distro_like keywords = false) ->
      (classify str_lower data).1 = "unknown")
  /\ (exists family : DistroFamily, (classify str_lower data).1 = value family)
  /\ (str_lower "" = "" ->
      forall str_strip : string -> string,
        detect_distro str_lower str_strip None = classify str_lower ∅).
Proof.
  intros distro_id distro_like.
  assert (Hsets : forall family keywords,
            (family, keywords) ∈ keyword_sets ->
            any_in keywords (distro_id +:+ " " +:+ distro_like) =
              matches distro_id distro_like keywords).
  { intros family keywords Hin. apply any_in_matches.
    unfold keyword_sets in Hin.
    repeat (apply elem_of_cons in Hin as [[= _ ->]|Hin]; [reflexivity|]).
    by apply elem_of_nil in Hin. }
  assert (Hcl : classify str_lower data =
            (value (first_match distro_id distro_like keyword_sets),
             default "Unknown Linux" (data !! "PRETTY_NAME"))).
  { unfold classify. fold distro_id distro_like.
    rewrite !any_in_matches by done. cbn [first_match keyword_sets].
    by repeat destruct (matches _ _ _). }
  split; [done|]. split; [done|]. rewrite Hcl. cbn [fst first_match keyword_sets].
  split; [by intros ->|]. split; [|split].
  - intros Hnone.
    rewrite (Hnone DEBIAN), (Hnone REDHAT), (Hnone ARCH), (Hnone SUSE); [done|..];
      unfold keyword_sets; rewrite !elem_of_cons; auto 10.
  - by eexists.
  - intros Hlow str_strip. cbn [detect_distro]. unfold classify.
    rewrite !lookup_empty. cbn [default]. by rewrite Hlow.
Qed.

Lemma ascii_lower_empty : ascii_lower "" = "".
Proof. done. Qed.

Lemma classify_first_match_witness :
  detect_distro ascii_lower ascii_strip None = classify ascii_lower ∅
  /\ (classify ascii_lower {["ID" := "Ubuntu"]}).1 = "debian".
Proof.
  destruct (classify_first_match ascii_lower ∅) as (_ & _ & _ & _ & _ & Hnone).
  destruct (classify_first_match ascii_lower {["ID" := "Ubuntu"]})
    as (_ & _ & Hdeb & _).
  split; [exact (Hnone ascii_lower_empty ascii_strip)|].
  apply Hdeb. reflexivity.
Defined.

Example detect_distro_ubuntu :
  detect_distro ascii_lower ascii_strip (Some ubuntu_release) = ("debian", "Ubuntu 22.04 LTS").
Proof. reflexivity. Qed.

Example detect_distro_priority :
  (classify ascii_lower {["ID" := "fedora"; "ID_LIKE" := "debian"]}).1 = "debian"
  /\ (classify ascii_lower {["ID" := "manjaro"; "ID_LIKE" := "arch"]}).1 = "arch"
  /\ (classify ascii_lower {["ID" := "ar"; "ID_LIKE" := "ch"]}).1 = "unknown"
  /\ (classify ascii_lower {["ID" := "alpine"]}).1 = "unknown".
Proof. by repeat split. Qed.


(** * Further properties *)

(** ** [add_custom] and [remove_custom] together *)

(** X1. What [add_custom] and [remove_custom] return tells whether the alias
    was among the loaded entries, and nothing about the write: [add_custom]
    returns [True] exactly when no loaded entry has the alias, [remove_custom]
    exactly when one has, whatever becomes of the file. *)
Theorem add_remove_result (fault : io_fault) (a n desc cmd : string) (root : bool) (w : World) :
  ((add_custom fault a n desc cmd root w).1 = true <-> PStr a ∉ alias <$> load_custom w)
  /\ ((remove_custom fault a w).1 = true <-> PStr a ∈ alias <$> load_custom w).
Proof.
  destruct (alias_present_dec a (load_custom w)) as [Hin|Hnot].
  - rewrite add_custom_present, remove_custom_present by done. cbn [fst].
    split; split; naive_solver.
  - rewrite add_custom_fresh, remove_custom_absent by done. cbn [fst].
    split; split; naive_solver.
Qed.

(** X2. When the write fails, [add_custom] with a new alias still returns
    [True]: if the file could not be opened the stored commands are what they
    were, without the new one; if writing stopped half-way no stored command
    can be loaded any more. *)
Theorem add_custom_failed_write (a n desc cmd : string) (root : bool) (w : World) :
  PStr a ∉ alias <$> load_custom w ->
  (add_custom OpenFails a n desc cmd root w).1 = true
  /\ load_custom (add_custom OpenFails a n desc cmd root w).2 = load_custom w
  /\ stdout (add_custom OpenFails a n desc cmd root w).2 = stdout w ++ [ErrorSaving OSError]
  /\ (add_custom WriteFails a n desc cmd root w).1 = true
  /\ load_custom (add_custom WriteFails a n desc cmd root w).2 = [].
Proof. intros Hnot. by rewrite !add_custom_fresh. Qed.

Lemma add_custom_failed_write_witness :
  (add_custom WriteFails "bkp" "Backup Home" "tar home dir" "true" false saved_before).1 = true
  /\ load_custom (add_custom WriteFails "bkp" "Backup Home" "tar home dir" "true" false
                    saved_before).2 = [].
Proof.
  destruct (add_custom_failed_write "bkp" "Backup Home" "tar home dir" "true" false saved_before)
    as (_ & _ & _ & Htrue & Hnil).
  - intros Hin. apply list_elem_of_singleton in Hin. discriminate.
  - by split.
Defined.

(** X3. After [add_custom] whose write goes through, some loaded entry has
    the alias, whether it was added now or was there before; when it was
    added, there is one custom entry more. *)
Theorem add_custom_then_present (a n desc cmd : string) (root : bool) (w : World) :
  PStr a ∈ alias <$> load_custom (add_custom NoFault a n desc cmd root w).2
  /\ ((add_custom NoFault a n desc cmd root w).1 = true ->
      length (load_custom (add_custom NoFault a n desc cmd root w).2) =
        S (length (filter custom (load_custom w)))).
Proof.
  destruct (alias_present_dec a (load_custom w)) as [Hin|Hnot].
  - rewrite add_custom_present by done. split; [done|discriminate].
  - rewrite add_custom_fresh by done. cbn [fst snd].
    rewrite load_custom_save_NoFault, filter_app.
    change (filter custom [new_cmd a n desc cmd root]) with [new_cmd a n desc cmd root].
    split.
    + rewrite fmap_app. apply elem_of_app. right. apply list_elem_of_here.
    + intros _. rewrite length_app. cbn. lia.
Qed.

Lemma add_custom_then_present_witness :
  length (load_custom (add_custom NoFault "bkp" "Backup Home" "tar home dir" "true" false
                         saved_before).2) = 2%nat.
Proof.
  apply (proj2 (add_custom_then_present "bkp" "Backup Home" "tar home dir" "true" false
                  saved_before)).
  reflexivity.
Defined.

(** X4. Adding a new alias and removing it again, both writes going through,
    leaves the custom entries that were loaded at the start, in their order. *)
Theorem add_then_remove (a n desc cmd : string) (root : bool) (w : World) :
  PStr a ∉ alias <$> load_custom w ->
  let w1 := (add_custom NoFault a n desc cmd root w).2 in
  (remove_custom NoFault a w1).1 = true
  /\ load_custom (remove_custom NoFault a w1).2 = filter custom (load_custom w).
Proof.
  intros Hnot w1.
  assert (Hload : load_custom w1 = filter custom (load_custom w) ++ [new_cmd a n desc cmd root]).
  { unfold w1. rewrite add_custom_fresh by done. cbn [snd].
    by rewrite load_custom_save_NoFault, filter_app. }
  assert (Hin : PStr a ∈ alias <$> load_custom w1).
  { rewrite Hload, fmap_app. apply elem_of_app. right. apply list_elem_of_here. }
  rewrite remove_custom_present by done. cbn [fst snd]. split; [done|].
  rewrite load_custom_save_NoFault, Hload, filter_app.
  rewrite filter_other_alias_absent.
  - rewrite filter_cons_False, filter_nil, app_nil_r.
    + apply filter_custom_idemp.
    + rewrite other_alias_iff. by intros [].
  - intros (c & Heq & [_ Hc]%list_elem_of_filter)%list_elem_of_fmap.
    apply Hnot. rewrite Heq. by apply list_elem_of_fmap_2.
Qed.

Lemma add_then_remove_witness :
  load_custom
    (remove_custom NoFault "bkp"
       (add_custom NoFault "bkp" "Backup Home" "tar home dir" "true" false saved_before).2).2 =
  [old_entry].
Proof.
  apply (add_then_remove "bkp" "Backup Home" "tar home dir" "true" false saved_before).
  intros Hin. apply list_elem_of_singleton in Hin. discriminate.
Defined.

(** X5. Removing an alias a second time, after a [remove_custom] whose write
    went through, finds nothing: it returns [False] and changes nothing. *)
Theorem remove_custom_twice (fault : io_fault) (a : string) (w : World) :
  let w1 := (remove_custom NoFault a w).2 in
  remove_custom fault a w1 = (false, w1).
Proof.
  intros w1. apply remove_custom_absent. unfold w1.
  destruct (alias_present_dec a (load_custom w)) as [Hin|Hnot].
  - rewrite remove_custom_present by done. cbn [snd].
    rewrite load_custom_save_NoFault.
    intros (c & Heq & [_ [Hc _]%list_elem_of_filter]%list_elem_of_filter)%list_elem_of_fmap.
    by apply other_alias_iff in Hc.
  - by rewrite remove_custom_absent.
Qed.

(** ** The files this program writes *)

Lemma managed_all_custom (w : World) : managed w -> Forall custom (load_custom w).
Proof.
  intros Hw. eapply Forall_impl; [by apply managed_created|].
  by intros c (a & n & desc & cmd & root & ->).
Qed.

Lemma NoDup_alias_filter (P : Command -> Prop) `{!forall c, Decision (P c)} (l : list Command) :
  NoDup (alias <$> l) -> NoDup (alias <$> filter P l).
Proof.
  intros Hnd. eapply sublist_NoDup; [exact Hnd|].
  apply fmap_sublist, sublist_filter.
Qed.

(** X6. In a file that only [add_custom] and [remove_custom] have written,
    whether their writes failed or not, no two entries have the same alias,
    and every entry is custom. *)
Theorem managed_aliases_distinct (w : World) :
  managed w -> NoDup (alias <$> load_custom w) /\ Forall custom (load_custom w).
Proof.
  intros Hw. split; [|by apply managed_all_custom].
  induction Hw as [out|fault a n desc cmd root w Hw IH|fault a w Hw IH].
  - constructor.
  - destruct (alias_present_dec a (load_custom w)) as [Hin|Hnot].
    + by rewrite add_custom_present.
    + rewrite add_custom_fresh by done. cbn [snd]. destruct fault.
      * rewrite load_custom_save_NoFault. apply NoDup_alias_filter.
        rewrite fmap_app. apply NoDup_app. split; [done|].
        split; [|apply NoDup_singleton].
        intros x Hx Hx'. apply list_elem_of_singleton in Hx'. by subst x.
      * by rewrite load_custom_save_OpenFails.
      * rewrite load_custom_save_WriteFails. constructor.
  - destruct (alias_present_dec a (load_custom w)) as [Hin|Hnot].
    + rewrite remove_custom_present by done. cbn [snd]. destruct fault.
      * rewrite load_custom_save_NoFault. by do 2 apply NoDup_alias_filter.
      * by rewrite load_custom_save_OpenFails.
      * rewrite load_custom_save_WriteFails. constructor.
    + by rewrite remove_custom_absent.
Qed.

Lemma managed_two_adds :
  managed (add_custom NoFault "bkp" "Backup Home" "tar home dir" "true" false
             (add_custom NoFault "old" "Old" "an earlier command" "true" false no_file).2).2.
Proof. apply managed_add, managed_add, (managed_fresh []). Qed.

Lemma managed_aliases_distinct_witness :
  NoDup [PStr "old"; PStr "bkp"].
Proof. exact (proj1 (managed_aliases_distinct _ managed_two_adds)). Defined.

(** ** The registry over the files this program writes *)

Lemma catalog_is_init (cat : list Command) :
  catalog cat -> exists w, managed w /\ cat = builtin_commands ++ load_custom w.
Proof.
  induction 1 as [w Hw|w cat Hw _ (w0 & Hw0 & ->)].
  - by exists w.
  - exists w. split; [done|].
    rewrite reload_filter, filter_app, builtin_not_custom.
    rewrite filter_not_custom_nil by by apply managed_all_custom.
    by rewrite app_nil_r.
Qed.

(** X7. Over the files this program writes, [reload] brings a registry to
    what a fresh start over the current file builds: the built-in commands
    followed by the loaded ones.  So reloading twice is reloading once. *)
Theorem reload_in_sync (w : World) (cat : list Command) :
  managed w -> catalog cat ->
  CommandRegistry.reload w cat = CommandRegistry.init w
  /\ CommandRegistry.reload w (CommandRegistry.reload w cat) = CommandRegistry.reload w cat.
Proof.
  intros Hw Hcat.
  assert (Hsync : forall cat', catalog cat' ->
                    CommandRegistry.reload w cat' = CommandRegistry.init w).
  { intros cat' (w0 & Hw0 & ->)%catalog_is_init.
    rewrite reload_filter, filter_app, builtin_not_custom.
    rewrite filter_not_custom_nil by by apply managed_all_custom.
    by rewrite app_nil_r. }
  split; [by apply Hsync|].
  rewrite (Hsync cat) by done. apply Hsync. by apply catalog_init.
Qed.

Lemma reload_in_sync_witness :
  CommandRegistry.reload
    (add_custom NoFault "bkp" "Backup Home" "tar home dir" "tar czf /tmp/home.tgz /home"
       false no_file).2
    (CommandRegistry.init no_file) = builtin_commands ++ [new_entry].
Proof.
  apply reload_in_sync.
  - apply managed_add, (managed_fresh []).
  - apply catalog_init, (managed_fresh []).
Defined.

Lemma get_lookup (cmds : list Command) (idx : Z) :
  CommandRegistry.get cmds idx =
    Ok (if decide (0 <= idx < Z.of_nat (length cmds)) then cmds !! Z.to_nat idx else None).
Proof.
  unfold CommandRegistry.get, py_getitem. case_decide as Hr.
  - destruct Hr as [Hlo Hhi].
    rewrite (proj2 (Z.leb_le 0 idx)), (proj2 (Z.ltb_lt idx _)) by lia.
    rewrite (proj2 (Z.ltb_ge idx 0)) by lia. cbn.
    rewrite (proj2 (Z.ltb_ge idx 0)) by lia.
    destruct (lookup_lt_is_Some_2 cmds (Z.to_nat idx)) as [c Hc]; [lia|].
    by rewrite Hc.
  - destruct (0 <=? idx) eqn:Hlo; [|done].
    destruct (idx <? Z.of_nat (length cmds)) eqn:Hhi; [|done].
    apply Z.leb_le in Hlo. apply Z.ltb_lt in Hhi. lia.
Qed.

(** X8. The built-in commands keep their positions: in a registry that starts
    with them, whatever follows, [get] at 0 to 9 gives the built-in command
    of that position, and [get] at 10 and beyond gives the entries that
    follow, counted from there. *)
Theorem builtin_positions (rest : list Command) (i : Z) :
  (0 <= i < 10 ->
   exists c, builtin_commands !! Z.to_nat i = Some c
             /\ CommandRegistry.get (builtin_commands ++ rest) i = Ok (Some c))
  /\ (0 <= i ->
      CommandRegistry.get (builtin_commands ++ rest) (10 + i) = Ok (rest !! Z.to_nat i)).
Proof.
  assert (Hlen : length builtin_commands = 10%nat) by done.
  split.
  - intros Hi.
    destruct (lookup_lt_is_Some_2 builtin_commands (Z.to_nat i)) as [c Hc]; [lia|].
    exists c. split; [done|].
    rewrite get_lookup, length_app, decide_True by lia.
    rewrite lookup_app_l by lia. by rewrite Hc.
  - intros Hi. rewrite get_lookup, length_app.
    replace (Z.to_nat (10 + i)) with (length builtin_commands + Z.to_nat i)%nat by lia.
    rewrite lookup_app_r by lia.
    replace (length builtin_commands + Z.to_nat i - length builtin_commands)%nat
      with (Z.to_nat i) by lia.
    case_decide as Hr; [done|].
    f_equal. symmetry. apply lookup_ge_None. lia.
Qed.

Lemma builtin_positions_witness :
  CommandRegistry.get (builtin_commands ++ [new_entry]) 10 = Ok (Some new_entry).
Proof. apply (proj2 (builtin_positions [new_entry] 0)). lia. Defined.

(** ** The keys of a record *)

Lemma dict_lookup_elem (k : string) (v : pyval) (d : list (string * pyval)) :
  NoDup d.*1 -> dict_lookup k d = Some v <-> (k, v) ∈ d.
Proof.
  induction d as [|[k' v'] d IH]; cbn [dict_lookup fmap list_fmap fst].
  - intros _. split; [done|]. by intros ?%elem_of_nil.
  - intros [Hk' Hnd]%NoDup_cons. rewrite elem_of_cons.
    destruct (String.eqb k' k) eqn:Heq.
    + apply String.eqb_eq in Heq as ->. split.
      * intros [= ->]. by left.
      * intros [[= ->]|Hin]; [done|].
        destruct Hk'. apply list_elem_of_fmap. by exists (k, v).
    + apply String.eqb_neq in Heq. rewrite IH by done. split; [by right|].
      intros [[= -> ->]|Hin]; [done|done].
Qed.

Lemma dict_lookup_perm (k : string) (d d' : list (string * pyval)) :
  NoDup d.*1 -> d ≡ₚ d' -> dict_lookup k d = dict_lookup k d'.
Proof.
  intros Hnd Hperm.
  assert (Hnd' : NoDup d'.*1) by by rewrite <- Hperm.
  destruct (dict_lookup k d) as [v|] eqn:Hd.
  - symmetry. apply dict_lookup_elem; [done|]. rewrite <- Hperm.
    by apply dict_lookup_elem.
  - destruct (dict_lookup k d') as [v'|] eqn:Hd'; [|done].
    apply dict_lookup_elem in Hd'; [|done]. rewrite <- Hperm in Hd'.
    apply dict_lookup_elem in Hd'; [|done]. congruence.
Qed.

(** X9. The order of the keys in a record does not matter to [load_custom]:
    two records with the same keys and values, in any order, become the same
    command or are both refused. *)
Theorem Command_kwargs_key_order (d d' : list (string * pyval)) :
  NoDup d.*1 -> d ≡ₚ d' -> Command_kwargs (PDict d) = Command_kwargs (PDict d').
Proof.
  intros Hnd Hperm. rewrite !Command_kwargs_accepted.
  unfold accepted_record, record_fields, has_key, dict_get.
  rewrite !(dict_lookup_perm _ d d') by done.
  assert (Hkeys : forallb (fun kv => bool_decide (kv.1 ∈ field_names)) d =
                  forallb (fun kv => bool_decide (kv.1 ∈ field_names)) d').
  { apply eq_true_iff_eq. rewrite <- !Is_true_true, !forallb_True. by rewrite Hperm. }
  by rewrite Hkeys.
Qed.

Lemma Command_kwargs_key_order_witness :
  Command_kwargs (PDict [("commands", PDict []); ("name", PStr "n"); ("description", PStr "d")]) =
  Command_kwargs (PDict [("name", PStr "n"); ("description", PStr "d"); ("commands", PDict [])]).
Proof.
  apply Command_kwargs_key_order.
  - repeat constructor; rewrite ?elem_of_cons, ?elem_of_nil; intuition discriminate.
  - apply Permutation_cons_append with (l := [("name", PStr "n"); ("description", PStr "d")]).
Defined.

(** ** Reading the lines of [/etc/os-release] *)

(** X10. [split_eq] cuts at the first ['=']: it gives [key] and [val] exactly
    when the text is [key], then ['='], then [val], with no ['='] in [key];
    it raises exactly when the text has no ['=']. *)
Theorem split_eq_first (s : string) :
  (forall key val : string,
      split_eq s = Ok (key, val) <->
      s = key +:+ "=" +:+ val /\ char_in "=" key = false)
  /\ ((exists e, split_eq s = Raise e) <-> char_in "=" s = false).
Proof.
  induction s as [|c s [IHok IHraise]].
  - split.
    + intros key val. split; [done|]. intros [Heq _]. by destruct key.
    + split; [done|]. intros _. by exists ValueError.
  - cbn [split_eq char_in]. destruct (Ascii.eqb c "=") eqn:Hc.
    + apply Ascii.eqb_eq in Hc as ->. split.
      * intros key val. split.
        -- by intros [= <- <-].
        -- intros [Heq Hkey]. destruct key as [|a key].
           ++ rewrite append_nil in Heq. by injection Heq as ->.
           ++ rewrite append_cons in Heq. injection Heq as <- _.
              cbn [char_in] in Hkey. by rewrite (Ascii.eqb_refl "=") in Hkey.
      * split; [by intros [e He]|done].
    + cbn [orb]. split.
      * intros key val. destruct (split_eq s) as [[k v]|e] eqn:Hs; cbn [bind]; split.
        -- intros [= <- <-]. destruct (proj1 (IHok k v) eq_refl) as [-> Hk].
           split; [done|]. cbn [char_in]. by rewrite Hc.
        -- intros [Heq Hkey]. destruct key as [|a key].
           ++ rewrite append_nil in Heq. injection Heq as -> _.
              by rewrite (Ascii.eqb_refl "=") in Hc.
           ++ rewrite append_cons in Heq. injection Heq as <- Heq.
              cbn [char_in] in Hkey. apply orb_false_iff in Hkey as [_ Hkey].
              by injection (proj2 (IHok key val) (conj Heq Hkey)) as -> ->.
        -- done.
        -- intros [Heq Hkey]. destruct key as [|a key].
           ++ rewrite append_nil in Heq. injection Heq as -> _.
              by rewrite (Ascii.eqb_refl "=") in Hc.
           ++ rewrite append_cons in Heq. injection Heq as <- Heq.
              cbn [char_in] in Hkey. apply orb_false_iff in Hkey as [_ Hkey].
              by pose proof (proj2 (IHok key val) (conj Heq Hkey)).
      * rewrite <- IHraise. destruct (split_eq s) as [[k v]|e]; cbn [bind].
        -- split; by intros [e He].
        -- split; intros _; by eexists.
Qed.

Lemma append_nil_r (s : string) : s +:+ "" = s.
Proof. induction s as [|a s IH]; [done|]. by rewrite append_cons, IH. Qed.

Lemma append_assoc (s t u : string) : (s +:+ t) +:+ u = s +:+ t +:+ u.
Proof. induction s as [|a s IH]; [done|]. by rewrite !append_cons, IH. Qed.

Lemma run_of_snoc (c : ascii) (n : nat) :
  run_of c (S n) = run_of c n +:+ String c EmptyString.
Proof.
  induction n as [|n IH]; [done|].
  cbn [run_of] in *. rewrite append_cons. by rewrite <- IH.
Qed.

Lemma lstrip_char_spec (c : ascii) (s : string) :
  (exists n, s = run_of c n +:+ lstrip_char c s)
  /\ (forall t, lstrip_char c s <> String c t).
Proof.
  induction s as [|a s [[n Hn] Hhead]]; cbn [lstrip_char].
  - split; [by exists O|done].
  - destruct (Ascii.eqb a c) eqn:Ha.
    + apply Ascii.eqb_eq in Ha as ->. split; [|done].
      exists (S n). cbn [run_of]. by rewrite append_cons, <- Hn.
    + split; [by exists O|]. intros t [= -> _].
      by rewrite Ascii.eqb_refl in Ha.
Qed.

Lemma rstrip_char_spec (c : ascii) (s : string) :
  (exists m, s = rstrip_char c s +:+ run_of c m)
  /\ (forall t, rstrip_char c s <> t +:+ String c EmptyString)
  /\ ((forall t, s <> String c t) -> forall t, rstrip_char c s <> String c t).
Proof.
  induction s as [|a s ([m Hm] & Htail & _)]; cbn [rstrip_char].
  - split; [by exists O|]. split; [|done]. by intros [|b t].
  - destruct (rstrip_char c s) as [|b r] eqn:Hr.
    + destruct (Ascii.eqb a c) eqn:Ha.
      * apply Ascii.eqb_eq in Ha as ->. split; [|split].
        -- exists (S m). rewrite append_nil in Hm |- *. cbn [run_of]. by rewrite <- Hm.
        -- by intros [|b t].
        -- intros Hhead. by destruct (Hhead s).
      * split; [|split].
        -- exists m. rewrite append_nil in Hm. by rewrite append_cons, append_nil, <- Hm.
        -- intros [|b t]; rewrite ?append_nil, ?append_cons.
           ++ intros [= ->]. by rewrite Ascii.eqb_refl in Ha.
           ++ intros [= _ Ht]. by destruct t.
        -- intros _ t [= -> _]. by rewrite Ascii.eqb_refl in Ha.
    + split; [|split].
      * exists m. by rewrite append_cons, <- Hm.
      * intros [|b' t]; rewrite ?append_nil, ?append_cons; [done|].
        intros [= _ Ht]. by apply (Htail t).
      * intros Hhead t [= -> _]. by destruct (Hhead s).
Qed.

(** X11. [strip_char c] takes off all [c] at both ends and nothing else: the
    text is some [c], then the result, then some [c], and the result neither
    starts nor ends with [c].  So quotes around a value go, and stripping
    twice is stripping once. *)
Theorem strip_char_spec (c : ascii) (s : string) :
  (exists n m, s = run_of c n +:+ strip_char c s +:+ run_of c m)
  /\ (forall t, strip_char c s <> String c t)
  /\ (forall t, strip_char c s <> t +:+ String c EmptyString)
  /\ strip_char c (strip_char c s) = strip_char c s.
Proof.
  unfold strip_char.
  destruct (lstrip_char_spec c s) as [[n Hn] Hhead].
  destruct (rstrip_char_spec c (lstrip_char c s)) as ([m Hm] & Htail & Hkeep).
  assert (Hhead' : forall t, rstrip_char c (lstrip_char c s) <> String c t) by auto.
  split; [|split; [done|split; [done|]]].
  - exists n, m. by rewrite <- Hm.
  - set (r := rstrip_char c (lstrip_char c s)) in *.
    assert (Hl : lstrip_char c r = r).
    { destruct r as [|a r']; [done|]. cbn [lstrip_char].
      destruct (Ascii.eqb a c) eqn:Ha; [|done].
      apply Ascii.eqb_eq in Ha as ->. by destruct (Hhead' r'). }
    rewrite Hl.
    destruct (rstrip_char_spec c r) as ([m' Hm'] & _ & _).
    destruct m' as [|m'].
    + cbn [run_of] in Hm'. by rewrite append_nil_r in Hm'.
    + destruct (Htail (rstrip_char c r +:+ run_of c m')).
      by rewrite Hm' at 1; rewrite run_of_snoc, append_assoc.
Qed.

Lemma split_eq_first_raise (s : string) :
  (exists e, split_eq s = Raise e) -> char_in "=" s = false.
Proof.
  induction s as [|c s IH]; [done|].
  cbn [split_eq char_in]. destruct (Ascii.eqb c "="); [by intros [e He]|].
  destruct (split_eq s) as [[k v]|e]; cbn [bind]; [by intros [e He]|].
  intros _. apply IH. by exists e.
Qed.

Lemma str_in_char (c : ascii) (s : string) :
  str_in (String c EmptyString) s = char_in c s.
Proof.
  induction s as [|a s IH]; [done|].
  cbn [str_in char_in String.prefix]. rewrite IH.
  destruct (ascii_dec c a) as [->|Hne].
  - rewrite Ascii.eqb_refl. by destruct s.
  - rewrite (proj2 (Ascii.eqb_neq a c)) by congruence. done.
Qed.

Lemma read_lines_app (str_strip : string -> string) (data : gmap string string)
    (lines lines' : list string) :
  read_lines str_strip data (lines ++ lines') =
    (data' <- read_lines str_strip data lines ;; read_lines str_strip data' lines').
Proof.
  revert data. induction lines as [|line lines IH]; intros data; [done|].
  cbn [app read_lines]. destruct (read_line str_strip data line); [|done].
  apply IH.
Qed.

(** X12. As long as stripping a line does not take away its ['='], reading
    the lines never raises, so [detect_distro] classifies what was read; the
    answer for an unreadable file is then given for a readable one only when
    the classification itself gives it. *)
Theorem read_lines_never_raises (str_lower str_strip : string -> string) :
  (forall line, char_in "=" line = true -> char_in "=" (str_strip line) = true) ->
  forall lines : list string,
    exists data, read_lines str_strip ∅ lines = Ok data
                 /\ detect_distro str_lower str_strip (Some lines) = classify str_lower data.
Proof.
  intros Hstrip lines.
  assert (Hok : forall data, exists data', read_lines str_strip data lines = Ok data').
  { induction lines as [|line lines IH]; intros data; [by exists data|].
    cbn [read_lines]. unfold read_line. rewrite str_in_char.
    destruct (char_in "=" line) eqn:Hline; [|apply IH].
    destruct (split_eq (str_strip line)) as [[key val]|e] eqn:Hsplit.
    - apply IH.
    - apply Hstrip in Hline.
      assert (Hnone : char_in "=" (str_strip line) = false).
      { apply (split_eq_first_raise (str_strip line)). by exists e. }
      congruence. }
  destruct (Hok ∅) as [data Hdata]. exists data. split; [done|].
  cbn [detect_distro]. by rewrite Hdata.
Qed.

Lemma lstrip_space_keeps (c : ascii) (s : string) :
  is_space c = false -> char_in c (lstrip_space s) = char_in c s.
Proof.
  intros Hc. induction s as [|a s IH]; [done|].
  cbn [lstrip_space char_in]. destruct (is_space a) eqn:Ha; [|done].
  rewrite IH. rewrite (proj2 (Ascii.eqb_neq a c)); [done|congruence].
Qed.

Lemma rstrip_space_keeps (c : ascii) (s : string) :
  is_space c = false -> char_in c (rstrip_space s) = char_in c s.
Proof.
  intros Hc. induction s as [|a s IH]; [done|].
  cbn [rstrip_space char_in]. rewrite <- IH.
  destruct (rstrip_space s) as [|b r]; [|done].
  destruct (is_space a) eqn:Ha; [|done].
  cbn [char_in]. rewrite (proj2 (Ascii.eqb_neq a c)); [done|congruence].
Qed.

Lemma ascii_strip_keeps (c : ascii) (s : string) :
  is_space c = false -> char_in c (ascii_strip s) = char_in c s.
Proof.
  intros Hc. unfold ascii_strip.
  by rewrite rstrip_space_keeps, lstrip_space_keeps.
Qed.

Lemma read_lines_never_raises_witness :
  exists data, read_lines ascii_strip ∅ ubuntu_release = Ok data
               /\ detect_distro ascii_lower ascii_strip (Some ubuntu_release) =
                    classify ascii_lower data.
Proof.
  apply read_lines_never_raises.
  intros line Hline. by rewrite ascii_strip_keeps.
Defined.

(** X13. A line with an ['='] sets its key to its value without the quotes
    around it, whatever the key held before, and leaves every other key as it
    was: of two lines with the same key the later one counts. *)
Theorem read_lines_last_wins (str_strip : string -> string)
    (data data' : gmap string string) (lines : list string) (line key val : string) :
  read_lines str_strip data lines = Ok data' ->
  str_in "=" line = true ->
  split_eq (str_strip line) = Ok (key, val) ->
  exists data'', read_lines str_strip data (lines ++ [line]) = Ok data''
                 /\ data'' !! key = Some (strip_char "034" val)
                 /\ forall key', key' <> key -> data'' !! key' = data' !! key'.
Proof.
  intros Hlines Hline Hsplit.
  exists (<[key := strip_char "034" val]> data'). split; [|split].
  - rewrite read_lines_app, Hlines. cbn [bind read_lines]. unfold read_line.
    by rewrite Hline, Hsplit.
  - apply lookup_insert_eq.
  - intros key' Hne. by apply lookup_insert_ne.
Qed.

Lemma read_lines_last_wins_witness :
  exists data, read_lines ascii_strip ∅ (["ID=debian" +:+ nl] ++ ["ID=ubuntu" +:+ nl]) = Ok data
               /\ data !! "ID" = Some "ubuntu".
Proof.
  destruct (read_lines_last_wins ascii_strip ∅ {["ID" := "debian"]}
              ["ID=debian" +:+ nl] ("ID=ubuntu" +:+ nl) "ID" "ubuntu")
    as (data & Hdata & Hid & _); [reflexivity..|].
  by exists data.
Defined.

(** X14. A line without an ['='] (an empty line, a comment without one) is
    passed over: the lines read with it give what they give without it. *)
Theorem read_lines_skips (str_strip : string -> string) (data : gmap string string)
    (before after : list string) (line : string) :
  str_in "=" line = false ->
  read_lines str_strip data (before ++ line :: after) =
    read_lines str_strip data (before ++ after).
Proof.
  intros Hline. rewrite !read_lines_app.
  destruct (read_lines str_strip data before) as [data'|e]; [|done].
  cbn [bind read_lines]. unfold read_line at 1. by rewrite Hline.
Qed.

Lemma read_lines_skips_witness :
  read_lines ascii_strip ∅ (["ID=ubuntu" +:+ nl] ++ ("# a comment" +:+ nl) :: []) =
  read_lines ascii_strip ∅ (["ID=ubuntu" +:+ nl] ++ []).
Proof. by apply read_lines_skips. Defined.

(** ** [FastExecutor.execute] *)

Lemma execute_cases (family : string) (euid : Z) (run : pyval -> run_outcome) (cmd : Command) :
  match get_cmd cmd family with
  | Raise e => FastExecutor.execute family euid run cmd = Raise e
  | Ok command =>
      if truthy command then
        exists out,
          FastExecutor.execute family euid run cmd =
            Ok (match run command with Returned 0 => true | _ => false end,
                out ++ [Spawn command] ++
                [match run command with
                 | Returned 0 => Completed
                 | Returned code => ExitedWith code
                 | Interrupted => InterruptedLine
                 | Failed e => ErrorLine e
                 end])
          /\ filter is_spawn out = []
      else FastExecutor.execute family euid run cmd = Ok (false, [NotSupported family])
  end.
Proof.
  unfold FastExecutor.execute.
  destruct (get_cmd cmd family) as [command|e]; [|done]. cbn [bind].
  destruct (truthy command); [|done]. cbn [negb].
  eexists ([RuleAbove; ExecutingLine (name cmd); DescriptionLine (description cmd)]
           ++ (if truthy (alias cmd) then [AliasLine (alias cmd)] else [])
           ++ [RuleBelow]
           ++ (if truthy (requires_root cmd) && negb (euid =? 0) then [RequiresRoot] else [])).
  split.
  - destruct (run command) as [code| |e]; [|by rewrite <- !app_assoc..].
    destruct (Z.eqb_spec code 0) as [->|Hne]; [by rewrite <- !app_assoc|].
    destruct code; [done|by rewrite <- !app_assoc..].
  - by destruct (truthy (alias cmd)), (truthy (requires_root cmd) && negb (euid =? 0)).
Qed.

(** X15. [execute] starts no process for a command the family has no text
    for: when [get_cmd] gives [None] or the empty text, it prints that the
    command is not supported and returns [False], whatever the shell would
    do.  This is so for every built-in command under [unknown]. *)
Theorem execute_unsupported (family : string) (euid : Z) (run : pyval -> run_outcome)
    (cmd : Command) :
  (forall command, get_cmd cmd family = Ok command -> truthy command = false ->
      FastExecutor.execute family euid run cmd = Ok (false, [NotSupported family]))
  /\ (cmd ∈ builtin_commands ->
      FastExecutor.execute "unknown" euid run cmd = Ok (false, [NotSupported "unknown"])).
Proof.
  split.
  - intros command Hget Hfalse.
    pose proof (execute_cases family euid run cmd) as H.
    by rewrite Hget, Hfalse in H.
  - intros Hin. eapply Forall_forall in Hin; [|exact builtin_four_families].
    destruct Hin as [_ Hget].
    pose proof (execute_cases "unknown" euid run cmd) as H.
    by rewrite Hget in H.
Qed.

Lemma execute_unsupported_witness :
  FastExecutor.execute "debian" 0 (fun _ => Returned 0)
    (new_cmd "e" "Empty" "no text" "" false) = Ok (false, [NotSupported "debian"]).
Proof.
  by apply (proj1 (execute_unsupported "debian" 0 (fun _ => Returned 0)
                     (new_cmd "e" "Empty" "no text" "" false)) (PStr "")).
Defined.


(** X17. [execute] starts at most one process, and only with the text
    [get_cmd] gives for the family: the processes started are that text, when
    it is not empty, and none otherwise. *)
Theorem execute_spawns_the_text (family : string) (euid : Z) (run : pyval -> run_outcome)
    (cmd : Command) (result : bool) (out : list exec_event) :
  FastExecutor.execute family euid run cmd = Ok (result, out) ->
  exists command,
    get_cmd cmd family = Ok command
    /\ filter is_spawn out = if truthy command then [Spawn command] else [].
Proof.
  intros Hexec. pose proof (execute_cases family euid run cmd) as H.
  destruct (get_cmd cmd family) as [command|e]; [|congruence].
  exists command. split; [done|].
  destruct (truthy command).
  - destruct H as (out0 & Hout & Hnone). rewrite Hexec in Hout.
    injection Hout as _ ->. rewrite !filter_app, Hnone. cbn [app].
    rewrite filter_cons_True by done. f_equal.
    destruct (run command) as [[| |]| |]; done.
  - rewrite Hexec in H. by injection H as _ ->.
Qed.

Lemma execute_spawns_the_text_witness :
  exists command,
    get_cmd new_entry "suse" = Ok command
    /\ filter is_spawn
         [RuleAbove; ExecutingLine (PStr "Backup Home"); DescriptionLine (PStr "tar home dir");
          AliasLine (PStr "bkp"); RuleBelow; Spawn (PStr "tar czf /tmp/home.tgz /home");
          ExitedWith 2] =
       if truthy command then [Spawn command] else [].
Proof.
  by apply (execute_spawns_the_text "suse" 1000 (fun _ => Returned 2) new_entry false).
Defined.

(** X18. A command built by [add_custom] with a non-empty text runs that
    text under each of the five families: [execute] does and returns the same
    whatever the family. *)
Theorem execute_custom_any_family (euid : Z) (run : pyval -> run_outcome)
    (a n desc cmd : string) (root : bool) (f : DistroFamily) :
  cmd <> "" ->
  let c := new_cmd a n desc cmd root in
  FastExecutor.execute (value f) euid run c = FastExecutor.execute "unknown" euid run c
  /\ exists result out,
       FastExecutor.execute (value f) euid run c = Ok (result, out)
       /\ filter is_spawn out = [Spawn (PStr cmd)]
       /\ (result = true <-> run (PStr cmd) = Returned 0).
Proof.
  intros Hcmd c.
  assert (Hget : get_cmd c (value f) = Ok (PStr cmd)) by by destruct f.
  assert (Htruthy : truthy (PStr cmd) = true).
  { cbn. apply negb_true_iff, String.eqb_neq. done. }
  split.
  - assert (Hget' : get_cmd c "unknown" = Ok (PStr cmd)) by done.
    unfold FastExecutor.execute. rewrite Hget, Hget'. cbn [bind].
    by rewrite Htruthy.
  - pose proof (execute_cases (value f) euid run c) as H.
    rewrite Hget, Htruthy in H. destruct H as (out0 & Hexec & Hnone).
    eexists _, _. split; [exact Hexec|]. split.
    + rewrite !filter_app, Hnone. cbn [app]. rewrite filter_cons_True by done.
      f_equal. destruct (run (PStr cmd)) as [[| |]| |]; done.
    + destruct (run (PStr cmd)) as [[| |]| |]; split; done.
Qed.

Lemma execute_custom_any_family_witness :
  FastExecutor.execute "arch" 0 (fun _ => Returned 0) new_entry =
  FastExecutor.execute "unknown" 0 (fun _ => Returned 0) new_entry.
Proof.
  apply (execute_custom_any_family 0 (fun _ => Returned 0) "bkp" "Backup Home" "tar home dir"
           "tar czf /tmp/home.tgz /home" false ARCH).
  discriminate.
Defined.


(** ** [AutomateCM.add_custom] *)

Lemma load_custom_config_file (w : World) :
  load_custom w = load_custom {| config_file := config_file w; stdout := [] |}.
Proof. by destruct w. Qed.

Lemma nonempty_true (s : string) : AutomateCM.nonempty s = true <-> s <> "".
Proof. unfold AutomateCM.nonempty. by rewrite negb_true_iff, String.eqb_neq. Qed.

Lemma input_eq (prompt : string) (s : Session) (rest : string -> Session -> ending) :
  input prompt s rest =
    match keyboard s with
    | [] => EOFError (advance prompt [] s)
    | Typed line :: keys => rest line (advance prompt keys s)
    | CtrlC :: keys => KeyboardInterrupt (advance prompt keys s)
    | CtrlD :: keys => EOFError (advance prompt keys s)
    end.
Proof.
  unfold input, show, advance. cbn [keyboard file registry screen].
  by destruct (keyboard s) as [|[line| |] keys] eqn:Hk; rewrite ?Hk.
Qed.

Lemma file_advance (prompt : string) (keys : list key_event) (s : Session) :
  file (advance prompt keys s) = file s.
Proof. done. Qed.

Lemma registry_advance (prompt : string) (keys : list key_event) (s : Session) :
  registry (advance prompt keys s) = registry s.
Proof. done. Qed.

Lemma keyboard_advance (prompt : string) (keys : list key_event) (s : Session) :
  keyboard (advance prompt keys s) = keys.
Proof. done. Qed.

Lemma file_show (e : ui_event) (s : Session) : file (show e s) = file s.
Proof. done. Qed.

Lemma registry_show (e : ui_event) (s : Session) : registry (show e s) = registry s.
Proof. done. Qed.

Lemma keyboard_show (e : ui_event) (s : Session) : keyboard (show e s) = keyboard s.
Proof. done. Qed.

Global Opaque advance show.

Ltac front_end_unchanged :=
  left; cbn [final];
  rewrite ?file_show, ?registry_show, ?file_advance, ?registry_advance,
    ?file_show, ?registry_show;
  split; [eexists; first [by left | by right]|by split].

Ltac next_key ks l k :=
  rewrite input_eq, ?keyboard_advance, ?keyboard_show;
  destruct ks as [|[l| |] k]; [front_end_unchanged| |front_end_unchanged..].

(** What [add_custom] of the front end comes to: nothing stored or reloaded,
    or one call of [ConfigManager.add_custom] with four non-empty texts, after
    five lines were typed. *)
Lemma front_add_custom_effect (str_lower str_strip : string -> string)
    (fault : io_fault) (s : Session) :
  let e := AutomateCM.add_custom str_lower str_strip fault s in
  ((exists s', e = Returns s' \/ e = EOFError s')
   /\ file (final e) = file s /\ registry (final e) = registry s)
  \/ (exists l1 l2 l3 l4 l5 keys,
        keyboard s = Typed l1 :: Typed l2 :: Typed l3 :: Typed l4 :: Typed l5 :: keys
        /\ str_strip l1 <> "" /\ str_strip l2 <> ""
        /\ str_strip l3 <> "" /\ str_strip l4 <> ""
        /\ let r := ConfigManager.add_custom fault (str_strip l1) (str_strip l2)
                      (str_strip l3) (str_strip l4)
                      (String.eqb (str_lower (str_strip l5)) "y")
                      {| config_file := file s; stdout := [] |} in
           e = Returns (final e)
           /\ file (final e) = config_file r.2
           /\ registry (final e) =
                (if r.1
                 then CommandRegistry.reload {| config_file := config_file r.2; stdout := [] |}
                        (registry s)
                 else registry s)
           /\ keyboard (final e) = keys).
Proof.
  intros e. subst e. unfold AutomateCM.add_custom.
  destruct (keyboard s) as [|[l1| |] k1] eqn:Hk;
    rewrite input_eq, !keyboard_show, Hk; [front_end_unchanged| |front_end_unchanged..].
  destruct (AutomateCM.nonempty (str_strip l1)) eqn:H1; cbn [negb];
    [|front_end_unchanged].
  next_key k1 l2 k2. next_key k2 l3 k3. next_key k3 l4 k4.
  destruct (AutomateCM.nonempty (str_strip l2)) eqn:H2; cbn [negb andb];
    [|front_end_unchanged].
  destruct (AutomateCM.nonempty (str_strip l3)) eqn:H3; cbn [negb andb];
    [|front_end_unchanged].
  destruct (AutomateCM.nonempty (str_strip l4)) eqn:H4; cbn [negb andb];
    [|front_end_unchanged].
  next_key k4 l5 k5.
  right. exists l1, l2, l3, l4, l5, k5.
  apply nonempty_true in H1, H2, H3, H4.
  split; [done|]. do 4 (split; [done|]).
  unfold AutomateCM.config_add_custom, AutomateCM.registry_reload.
  rewrite !file_advance, !registry_advance, !keyboard_advance, !file_show, !registry_show.
  destruct (ConfigManager.add_custom _ _ _ _ _ _ _) as [[|] w]; cbn [final fst snd];
    rewrite ?file_show, ?registry_show, ?keyboard_show; cbn [file registry keyboard]; done.
Qed.

Lemma alias_invariant_add_custom (fault : io_fault) (a n desc cmd : string) (root : bool)
    (w : World) :
  a <> "" -> alias_invariant (load_custom w) ->
  alias_invariant (load_custom (ConfigManager.add_custom fault a n desc cmd root w).2).
Proof.
  intros Ha Hinv. destruct (alias_present_dec a (load_custom w)) as [Hin|Hnot].
  - by rewrite add_custom_present.
  - rewrite add_custom_fresh by done. cbn [snd].
    apply alias_invariant_save; [done|]. by apply alias_invariant_snoc.
Qed.

(** X20. Through the front end the aliases of the stored custom entries stay
    pairwise distinct and non-empty, whatever is typed and whatever becomes
    of the write: an empty alias is turned away before [ConfigManager] is
    asked. *)
Theorem front_add_custom_keeps_aliases (str_lower str_strip : string -> string)
    (fault : io_fault) (s : Session) :
  alias_invariant (stored s) ->
  alias_invariant (stored (final (AutomateCM.add_custom str_lower str_strip fault s))).
Proof.
  intros Hinv.
  destruct (front_add_custom_effect str_lower str_strip fault s)
    as [(_ & Hfile & _)|(l1 & l2 & l3 & l4 & l5 & keys & _ & H1 & _ & _ & _ & H)].
  - unfold stored. by rewrite Hfile.
  - cbn zeta in H. destruct H as (_ & Hfile & _).
    unfold stored. rewrite Hfile, <- load_custom_config_file.
    by apply alias_invariant_add_custom.
Qed.

Lemma front_add_custom_keeps_aliases_witness :
  alias_invariant
    (stored (final (AutomateCM.add_custom ascii_lower ascii_strip NoFault typing_backup))).
Proof.
  apply front_add_custom_keeps_aliases. exact alias_invariant_saved_before.
Defined.

(** X21. The front end changes the file only after five lines were typed of
    which the first four, stripped, are not empty, and only when no stored
    entry has the alias typed: with an empty alias, name, description or
    command nothing is written. *)
Theorem front_add_custom_needs_fields (str_lower str_strip : string -> string)
    (fault : io_fault) (s : Session) :
  file (final (AutomateCM.add_custom str_lower str_strip fault s)) <> file s ->
  exists l1 l2 l3 l4 l5 keys,
    keyboard s = Typed l1 :: Typed l2 :: Typed l3 :: Typed l4 :: Typed l5 :: keys
    /\ str_strip l1 <> "" /\ str_strip l2 <> "" /\ str_strip l3 <> "" /\ str_strip l4 <> ""
    /\ PStr (str_strip l1) ∉ alias <$> stored s.
Proof.
  intros Hchanged.
  destruct (front_add_custom_effect str_lower str_strip fault s)
    as [(_ & Hfile & _)|(l1 & l2 & l3 & l4 & l5 & keys & Hk & H1 & H2 & H3 & H4 & H)];
    [done|].
  exists l1, l2, l3, l4, l5, keys. do 5 (split; [done|]).
  cbn zeta in H. destruct H as (_ & Hfile & _).
  intros Hin. apply Hchanged. rewrite Hfile.
  by rewrite add_custom_present.
Qed.

Lemma front_add_custom_needs_fields_witness :
  exists l1 l2 l3 l4 l5 keys,
    keyboard typing_backup =
      Typed l1 :: Typed l2 :: Typed l3 :: Typed l4 :: Typed l5 :: keys
    /\ ascii_strip l1 <> "" /\ ascii_strip l2 <> "" /\ ascii_strip l3 <> ""
    /\ ascii_strip l4 <> "" /\ PStr (ascii_strip l1) ∉ alias <$> stored typing_backup.
Proof.
  apply (front_add_custom_needs_fields ascii_lower ascii_strip NoFault typing_backup).
  discriminate.
Defined.

(** X22. The front end keeps the registry in step with the file: when the
    stored entries are all custom and the registry is the built-in commands
    followed by them, the same holds after [add_custom], whatever was typed
    and whatever became of the write. *)
Theorem front_add_custom_in_sync (str_lower str_strip : string -> string)
    (fault : io_fault) (s : Session) :
  Forall custom (stored s) ->
  registry s = builtin_commands ++ stored s ->
  let s' := final (AutomateCM.add_custom str_lower str_strip fault s) in
  registry s' = builtin_commands ++ stored s' /\ Forall custom (stored s').
Proof.
  intros Hcustom Hreg s'. subst s'.
  destruct (front_add_custom_effect str_lower str_strip fault s)
    as [(_ & Hfile & Hregistry)|(l1 & l2 & l3 & l4 & l5 & keys & _ & _ & _ & _ & _ & H)].
  - unfold stored in *. by rewrite Hfile, Hregistry.
  - cbn zeta in H. destruct H as (_ & Hfile & Hregistry & _).
    set (w := {| config_file := file s; stdout := [] |}) in *.
    set (r := ConfigManager.add_custom fault _ _ _ _ _ w) in *.
    assert (Hstored : stored (final (AutomateCM.add_custom str_lower str_strip fault s)) =
                      load_custom r.2).
    { unfold stored. by rewrite Hfile, <- load_custom_config_file. }
    assert (Hafter : Forall custom (load_custom r.2)).
    { subst r. destruct (alias_present_dec (str_strip l1) (load_custom w)) as [Hin|Hnot].
      - by rewrite add_custom_present.
      - rewrite add_custom_fresh by done. cbn [snd].
        apply Forall_load_custom_save; [done|].
        apply Forall_app. split; [done|]. by apply Forall_singleton. }
    rewrite Hstored, Hregistry. split; [|done].
    destruct r.1 eqn:Hadded.
    + rewrite Hreg, reload_filter, <- load_custom_config_file, filter_app,
        builtin_not_custom.
      rewrite filter_not_custom_nil by done. by rewrite app_nil_r.
    + rewrite Hreg. f_equal. subst r.
      destruct (alias_present_dec (str_strip l1) (load_custom w)) as [Hin|Hnot].
      * by rewrite add_custom_present.
      * by rewrite add_custom_fresh in Hadded.
Qed.

Lemma front_add_custom_in_sync_witness :
  registry (final (AutomateCM.add_custom ascii_lower ascii_strip NoFault typing_backup)) =
    builtin_commands ++ [old_entry; new_cmd "bkp" "Backup Home" "tar home dir"
                                      "tar czf /tmp/home.tgz /home" true].
Proof.
  apply (front_add_custom_in_sync ascii_lower ascii_strip NoFault typing_backup).
  - apply Forall_singleton. exact I.
  - reflexivity.
Defined.

(** X23. An interrupt at any of the five prompts does not leave [add_custom]
    as an exception: the method returns, and neither the file nor the
    registry has changed. *)
Theorem front_add_custom_interrupt (str_lower str_strip : string -> string)
    (fault : io_fault) (s : Session) (typed : list string) (keys : list key_event) :
  keyboard s = (Typed <$> typed) ++ CtrlC :: keys ->
  (length typed < 5)%nat ->
  exists s', AutomateCM.add_custom str_lower str_strip fault s = Returns s'
             /\ file s' = file s /\ registry s' = registry s.
Proof.
  intros Hk Hlen. unfold AutomateCM.add_custom.
  rewrite input_eq, !keyboard_show, Hk.
  destruct typed as [|l1 typed]; cbn [fmap list_fmap app].
  { eexists. split; [done|]. by rewrite !file_show, !registry_show, file_advance,
      registry_advance, !file_show, !registry_show. }
  destruct (AutomateCM.nonempty (str_strip l1)); cbn [negb];
    [|eexists; split; [done|];
      by rewrite !file_show, !registry_show, file_advance, registry_advance,
        !file_show, !registry_show].
  do 3 (rewrite input_eq, keyboard_advance;
        destruct typed as [|? typed]; cbn [fmap list_fmap app];
        [eexists; split; [done|];
         by rewrite !file_show, !registry_show, !file_advance, !registry_advance,
           !file_show, !registry_show|]).
  destruct (_ && _); cbn [negb];
    [|eexists; split; [done|];
      by rewrite !file_show, !registry_show, !file_advance, !registry_advance,
        !file_show, !registry_show].
  rewrite input_eq, keyboard_advance.
  destruct typed as [|? typed]; cbn [fmap list_fmap app]; [|cbn in Hlen; lia].
  eexists. split; [done|].
  by rewrite !file_show, !registry_show, !file_advance, !registry_advance,
    !file_show, !registry_show.
Qed.

Lemma front_add_custom_interrupt_witness :
  exists s',
    AutomateCM.add_custom ascii_lower ascii_strip NoFault
      {| file := None; registry := builtin_commands; screen := [];
         keyboard := [Typed "bkp"; Typed "Backup Home"; CtrlC] |} = Returns s'
    /\ file s' = None /\ registry s' = builtin_commands.
Proof.
  apply (front_add_custom_interrupt ascii_lower ascii_strip NoFault
           {| file := None; registry := builtin_commands; screen := [];
              keyboard := [Typed "bkp"; Typed "Backup Home"; CtrlC] |}
           ["bkp"; "Backup Home"] []); [reflexivity|cbn; lia].
Defined.
